(** * Ring buffer for WLAN packet descriptors (ring_buffer.c)

    A shallow embedding of the descriptor ring of [ring_buffer.c] and the
    properties of its specification.

    Conventions of the embedding:
    - [uint32_t] values are integers in [Z]; every arithmetic operation of
      the source is followed by its reduction modulo [2^32] ([wrap32]),
      and [&] is [Z.land].
    - The slot array behind [ring->buffer] is a list of descriptors; a
      read or write outside of the allocated slots is undefined behaviour
      in C and is the result [None] here.
    - A function that writes through a pointer takes the pointed-to value
      and gives the new one back (explicit state passing).
    - [malloc] is taken to succeed; the indeterminate content of the fresh
      block is an argument ([junk]).  [size_t] is taken to be 64 bits wide,
      so [size * sizeof(packet_desc_t)] does not wrap.
    - [__sync_synchronize()] has no effect on a single thread of
      execution; the embedding is sequential. *)

From stdpp Require Import base numbers list option.

Local Open Scope Z_scope.

(** ** Data model *)

(** [uint32_t] wrap-around. *)
Definition wrap32 (x : Z) : Z := x mod 2 ^ 32.

(** [packet_desc_t]; [data] is the address held by the pointer field. *)
Record packet_desc_t : Type := mk_desc {
  data : Z;
  paddr : Z;
  len : Z;
  flags : Z;
  timestamp : Z
}.

(** [ring_buffer_t]; [buffer] is the content of the allocated slot array. *)
Record ring_buffer_t : Type := mk_ring {
  buffer : list packet_desc_t;
  head : Z;
  tail : Z;
  mask : Z;
  size : Z
}.

(** What [ring_peek] returns: [NULL] or the address of a slot,
    [&ring->buffer[i]]. *)
Inductive desc_ptr : Type :=
  | NULL
  | slot_addr (i : Z).

(** ** Memory accesses *)

(** [buf[i]] read by [memcpy]; [None] outside of the array. *)
Definition load (buf : list packet_desc_t) (i : Z) : option packet_desc_t :=
  if decide (0 ≤ i) then buf !! Z.to_nat i else None.

(** [memcpy(&buf[i], d, sizeof(packet_desc_t))]; [None] outside of the
    array. *)
Definition store (buf : list packet_desc_t) (i : Z) (d : packet_desc_t)
  : option (list packet_desc_t) :=
  if decide (0 ≤ i < Z.of_nat (length buf))
  then Some (<[Z.to_nat i := d]> buf)
  else None.

(** [malloc(n * sizeof(packet_desc_t))]: [n] slots of indeterminate
    content. *)
Definition malloc (junk : nat → packet_desc_t) (n : Z) : list packet_desc_t :=
  junk <$> seq 0 (Z.to_nat n).

(** ** Operations *)

(** [ring_init]: every field of [*ring] is overwritten. *)
Definition ring_init (junk : nat → packet_desc_t) (ring : ring_buffer_t)
    (size : Z) : ring_buffer_t :=
  {| buffer := malloc junk size;
     head := 0;
     tail := 0;
     size := size;
     mask := wrap32 (size - 1) |}.

Definition ring_full (ring : ring_buffer_t) : bool :=
  Z.land (wrap32 (head ring - tail ring)) (mask ring) =? mask ring.

Definition ring_empty (ring : ring_buffer_t) : bool :=
  head ring =? tail ring.

Definition ring_space (ring : ring_buffer_t) : Z :=
  wrap32 (wrap32 (size ring
                  - Z.land (wrap32 (head ring - tail ring)) (mask ring)) - 1).

(** [ring_enqueue]: the returned flag and the ring after the call. *)
Definition ring_enqueue (ring : ring_buffer_t) (desc : packet_desc_t)
  : option (bool * ring_buffer_t) :=
  if ring_full ring then Some (false, ring)
  else
    let head0 := head ring in
    buf ← store (buffer ring) head0 desc;
    Some (true,
          {| buffer := buf;
             head := Z.land (wrap32 (head0 + 1)) (mask ring);
             tail := tail ring;
             mask := mask ring;
             size := size ring |}).

(** [ring_dequeue]: the returned flag, the ring and [*desc] after the
    call. *)
Definition ring_dequeue (ring : ring_buffer_t) (desc : packet_desc_t)
  : option (bool * ring_buffer_t * packet_desc_t) :=
  if ring_empty ring then Some (false, ring, desc)
  else
    let tail0 := tail ring in
    d ← load (buffer ring) tail0;
    Some (true,
          {| buffer := buffer ring;
             head := head ring;
             tail := Z.land (wrap32 (tail0 + 1)) (mask ring);
             mask := mask ring;
             size := size ring |},
          d).

(** [ring_peek]: the returned pointer and the ring after the call. *)
Definition ring_peek (ring : ring_buffer_t) : desc_ptr * ring_buffer_t :=
  if ring_empty ring then (NULL, ring)
  else (slot_addr (tail ring), ring).

(** The copy loop of [ring_enqueue_bulk]: [todo] iterations are left, the
    loop counter is [i]. *)
Fixpoint bulk_copy (buf : list packet_desc_t) (head0 mask0 : Z)
    (descs : list packet_desc_t) (i : Z) (todo : nat)
  : option (list packet_desc_t) :=
  match todo with
  | O => Some buf
  | S todo' =>
      d ← load descs i;
      buf' ← store buf (Z.land (wrap32 (head0 + i)) mask0) d;
      bulk_copy buf' head0 mask0 descs (i + 1) todo'
  end.

(** [ring_enqueue_bulk]: the returned count, the ring and the caller's
    array [descs] after the call (the function only reads it). *)
Definition ring_enqueue_bulk (ring : ring_buffer_t)
    (descs : list packet_desc_t) (count : Z)
  : option (Z * ring_buffer_t * list packet_desc_t) :=
  let space := ring_space ring in
  let n := if count <? space then count else space in
  if n =? 0 then Some (0, ring, descs)
  else
    let head0 := head ring in
    buf ← bulk_copy (buffer ring) head0 (mask ring) descs 0 (Z.to_nat n);
    Some (n,
          {| buffer := buf;
             head := Z.land (wrap32 (head0 + n)) (mask ring);
             tail := tail ring;
             mask := mask ring;
             size := size ring |},
          descs).

(** ** A sequential caller

    One thread of execution that calls [ring_enqueue] and [ring_dequeue]
    in some order; [out] is the caller's variable that [ring_dequeue]
    writes to.  The result holds the ring at the end, the descriptors
    [ring_enqueue] accepted and the descriptors [ring_dequeue] returned,
    both in the order of the calls. *)
Inductive op : Type :=
  | Enq (d : packet_desc_t)
  | Deq.

Fixpoint run (ring : ring_buffer_t) (out : packet_desc_t) (ops : list op)
  : option (ring_buffer_t * list packet_desc_t * list packet_desc_t) :=
  match ops with
  | [] => Some (ring, [], [])
  | Enq d :: ops' =>
      '(ok, ring') ← ring_enqueue ring d;
      '(r, acc, ret) ← run ring' out ops';
      Some (r, if ok : bool then d :: acc else acc, ret)
  | Deq :: ops' =>
      '(ok, ring', out') ← ring_dequeue ring out;
      '(r, acc, ret) ← run ring' out' ops';
      Some (r, acc, if ok : bool then out' :: ret else ret)
  end.

(** ** Well-formed rings and the queue they hold *)

Definition power_of_two (n : Z) : Prop := ∃ k, 0 ≤ k ∧ n = 2 ^ k.

(** The indices are inside the slot array. *)
Record ring_in_range (r : ring_buffer_t) : Prop := mk_in_range {
  range_size : 0 < size r < 2 ^ 32;
  range_mask : mask r = size r - 1;
  range_head : 0 ≤ head r < size r;
  range_tail : 0 ≤ tail r < size r;
  range_buffer : Z.of_nat (length (buffer r)) = size r
}.

(** A ring as the specification's data model has it: the capacity is a
    power of two. *)
Record ring_wf (r : ring_buffer_t) : Prop := mk_wf {
  wf_range : ring_in_range r;
  wf_pow2 : power_of_two (size r)
}.

(** Number of descriptors in flight. *)
Definition used (r : ring_buffer_t) : Z := (head r - tail r) mod size r.

(** The [n] slots from index [start] on, around the end of the array. *)
Fixpoint queued (buf : list packet_desc_t) (sz start : Z) (n : nat)
  : list packet_desc_t :=
  match n with
  | O => []
  | S n' =>
      match load buf start with
      | Some d => d :: queued buf sz ((start + 1) mod sz) n'
      | None => []
      end
  end.

(** The descriptors written and not yet consumed, oldest first. *)
Definition contents (r : ring_buffer_t) : list packet_desc_t :=
  queued (buffer r) (size r) (tail r) (Z.to_nat (used r)).

(** States of a ring of capacity [sz] that calls of the operations reach
    after [ring_init]. *)
Inductive reachable (junk : nat → packet_desc_t) (sz : Z)
  : ring_buffer_t → Prop :=
  | reach_init r0 :
      reachable junk sz (ring_init junk r0 sz)
  | reach_enqueue r d ok r' :
      reachable junk sz r →
      ring_enqueue r d = Some (ok, r') →
      reachable junk sz r'
  | reach_dequeue r out ok r' out' :
      reachable junk sz r →
      ring_dequeue r out = Some (ok, r', out') →
      reachable junk sz r'
  | reach_peek r p r' :
      reachable junk sz r →
      ring_peek r = (p, r') →
      reachable junk sz r'
  | reach_enqueue_bulk r descs count n r' descs' :
      reachable junk sz r →
      ring_enqueue_bulk r descs count = Some (n, r', descs') →
      reachable junk sz r'.

(** ** Concrete descriptors and rings *)

Definition desc0 : packet_desc_t := mk_desc 0 0 0 0 0.
Definition descA : packet_desc_t := mk_desc 4096 305418240 1500 1 10.
Definition descB : packet_desc_t := mk_desc 8192 305422336 64 0 11.
Definition descC : packet_desc_t := mk_desc 12288 305426432 128 3 12.
Definition descD : packet_desc_t := mk_desc 16384 305430528 256 1 13.
Definition no_ring : ring_buffer_t := mk_ring [] 7 9 0 0.
Definition ring4 : ring_buffer_t := ring_init (λ _, desc0) no_ring 4.

(** Capacity 4 after one accepted descriptor, and with three in flight. *)
Definition ring4_one : ring_buffer_t :=
  mk_ring [descA; desc0; desc0; desc0] 1 0 3 4.
Definition ring4_wrapping : ring_buffer_t :=
  mk_ring [descA; descB; descC; desc0] 3 1 3 4.

Ltac concrete_wf k :=
  split;
  [ split; vm_compute; first [ reflexivity | split; congruence ]
  | exists k; vm_compute; split; congruence ].

(** ** The caller of the source file *)

(** [RING_SIZE]. *)
Definition RING_SIZE : Z := 256.

(** [example_tx_processing]: [tx_ring] is the local variable, of
    indeterminate content when the function starts.  The result is
    whether the branch that notifies the hardware is taken, and [tx_ring]
    at the end. *)
Definition example_tx_processing (junk : nat → packet_desc_t)
    (tx_ring : ring_buffer_t) : option (bool * ring_buffer_t) :=
  let tx_ring := ring_init junk tx_ring RING_SIZE in
  let desc := {| data := 0;
                 paddr := 0x12345000;
                 len := 1500;
                 flags := 0x01;
                 timestamp := 0 |} in
  ring_enqueue tx_ring desc.

(** ** Reference behaviour

    A FIFO queue that holds at most [cap] descriptors, driven by the same
    calls as [run]: the queue at the end, the descriptors accepted and the
    descriptors returned. *)
Fixpoint bounded_queue_run (cap : nat) (q : list packet_desc_t)
    (ops : list op)
  : list packet_desc_t * list packet_desc_t * list packet_desc_t :=
  match ops with
  | [] => (q, [], [])
  | Enq d :: ops' =>
      if decide (length q < cap)%nat
      then let '(q', acc, ret) := bounded_queue_run cap (q ++ [d]) ops' in
           (q', d :: acc, ret)
      else bounded_queue_run cap q ops'
  | Deq :: ops' =>
      match q with
      | [] => bounded_queue_run cap [] ops'
      | x :: q0 =>
          let '(q', acc, ret) := bounded_queue_run cap q0 ops' in
          (q', acc, x :: ret)
      end
  end.

(** More concrete rings: capacity 1, an odd capacity, capacity 0. *)
Definition ring1 : ring_buffer_t := ring_init (λ _, desc0) no_ring 1.
Definition ring5 : ring_buffer_t := ring_init (λ _, desc0) no_ring 5.
Definition ring0 : ring_buffer_t := ring_init (λ _, desc0) no_ring 0.

(** ** The scenario of the specification, capacity 4 *)

Example scenario_capacity_4 :
  run ring4 desc0 [Enq descA; Enq descB; Enq descC; Enq descD; Deq;
                   Enq descD; Deq; Deq; Deq; Deq]
  = Some (mk_ring [descA; descB; descC; descD] 0 0 3 4,
          [descA; descB; descC; descD],
          [descA; descB; descC; descD]).
Proof. vm_compute. reflexivity. Qed.

(** ** Arithmetic of the masked indices *)

Lemma wrap32_range x : 0 ≤ wrap32 x < 2 ^ 32.
Proof. unfold wrap32. apply Z.mod_pos_bound. lia. Qed.

Lemma wrap32_small x : 0 ≤ x < 2 ^ 32 → wrap32 x = x.
Proof. intros Hx. unfold wrap32. apply Z.mod_small. exact Hx. Qed.

Lemma land_pow2_mask x k : 0 ≤ k → Z.land x (2 ^ k - 1) = x mod 2 ^ k.
Proof.
  intros Hk. rewrite <- Z.land_ones by exact Hk.
  f_equal. rewrite Z.ones_equiv. lia.
Qed.

Lemma pow2_le_32 k : 0 ≤ k → 2 ^ k < 2 ^ 32 → k < 32.
Proof.
  intros Hk Hlt. destruct (Z.lt_ge_cases k 32) as [|Hge]; [done|].
  pose proof (Z.pow_le_mono_r 2 32 k ltac:(lia) Hge). lia.
Qed.

Lemma wrap32_mod_pow2 x k : 0 ≤ k < 32 → wrap32 x mod 2 ^ k = x mod 2 ^ k.
Proof.
  intros Hk. unfold wrap32. apply Z.mod_mod_divide.
  exists (2 ^ (32 - k)). rewrite <- Z.pow_add_r by lia. f_equal. lia.
Qed.

(** Masking with [mask] is the remainder modulo the capacity. *)
Lemma land_mask_mod r x : ring_wf r → Z.land (wrap32 x) (mask r) = x mod size r.
Proof.
  intros [[Hsz Hm _ _ _] (k & Hk & Hpow)].
  rewrite Hm, Hpow in *. rewrite land_pow2_mask by done.
  apply wrap32_mod_pow2. split; [done|]. apply pow2_le_32; [done | lia].
Qed.

Lemma land_le_r a b : 0 ≤ a → 0 ≤ b → Z.land a b ≤ b.
Proof.
  intros Ha Hb.
  rewrite <- (Z2N.id a), <- (Z2N.id b) at 1 by done.
  rewrite <- N2Z.inj_land.
  pose proof (N.land_le_r (Z.to_N a) (Z.to_N b)). lia.
Qed.

(** Whatever the capacity, a masked value is an index of the array. *)
Lemma land_mask_range r x :
  ring_in_range r → 0 ≤ Z.land (wrap32 x) (mask r) < size r.
Proof.
  intros [Hsz Hm _ _ _]. pose proof (wrap32_range x) as Hx.
  split.
  - apply Z.land_nonneg. lia.
  - rewrite Hm. assert (Z.land (wrap32 x) (size r - 1) ≤ size r - 1); [|lia].
    apply land_le_r; lia.
Qed.

Lemma mod_diff n h t :
  0 ≤ h < n → 0 ≤ t < n →
  (h - t) mod n = if decide (t ≤ h) then h - t else h - t + n.
Proof.
  intros Hh Ht. case_decide.
  - apply Z.mod_small. lia.
  - symmetry. apply (Z.mod_unique _ _ (-1)); lia.
Qed.

Lemma mod_add n s i :
  0 ≤ s < n → 0 ≤ i < n →
  (s + i) mod n = if decide (s + i < n) then s + i else s + i - n.
Proof.
  intros Hs Hi. case_decide.
  - apply Z.mod_small. lia.
  - symmetry. apply (Z.mod_unique _ _ 1); lia.
Qed.

Lemma used_range r : ring_in_range r → 0 ≤ used r < size r.
Proof. intros [Hsz _ _ _ _]. unfold used. apply Z.mod_pos_bound. lia. Qed.

Lemma head_offset r : ring_in_range r → (tail r + used r) mod size r = head r.
Proof.
  intros Hr. pose proof (used_range r Hr) as Hu.
  destruct Hr as [Hsz _ Hh Ht _]. unfold used in *.
  rewrite mod_add by lia. rewrite mod_diff in * by lia.
  repeat case_decide; lia.
Qed.

(** ** The slot array as a queue *)

Lemma load_Some buf i :
  0 ≤ i < Z.of_nat (length buf) → ∃ d, load buf i = Some d.
Proof.
  intros Hi. unfold load. rewrite decide_True by lia.
  destruct (lookup_lt_is_Some_2 buf (Z.to_nat i)) as [d Hd]; [lia|].
  exists d. exact Hd.
Qed.

Lemma load_insert_eq buf i d :
  0 ≤ i < Z.of_nat (length buf) → load (<[Z.to_nat i := d]> buf) i = Some d.
Proof.
  intros Hi. unfold load. rewrite decide_True by lia.
  apply list_lookup_insert_eq. lia.
Qed.

Lemma load_insert_ne buf i j d :
  0 ≤ i → 0 ≤ j → i ≠ j → load (<[Z.to_nat i := d]> buf) j = load buf j.
Proof.
  intros Hi Hj Hne. unfold load. case_decide; [|done].
  apply list_lookup_insert_ne. lia.
Qed.

Lemma queued_length buf sz n :
  Z.of_nat (length buf) = sz →
  ∀ start, 0 ≤ start < sz → length (queued buf sz start n) = n.
Proof.
  intros Hlen. induction n as [|n IH]; intros start Hs; simpl; [done|].
  destruct (load_Some buf start) as [x ->]; [lia|].
  simpl. rewrite IH; [done|]. apply Z.mod_pos_bound. lia.
Qed.

(** Writing the slot after the last queued one appends to the queue. *)
Lemma queued_snoc buf sz d n :
  Z.of_nat (length buf) = sz → Z.of_nat n < sz →
  ∀ start, 0 ≤ start < sz →
    queued (<[Z.to_nat ((start + Z.of_nat n) mod sz) := d]> buf) sz start (S n)
    = queued buf sz start n ++ [d].
Proof.
  intros Hlen. induction n as [|n IH]; intros Hn start Hs.
  - simpl. rewrite Z.add_0_r, Z.mod_small by lia.
    rewrite load_insert_eq by lia. done.
  - assert (0 ≤ (start + 1) mod sz < sz) as Hs' by (apply Z.mod_pos_bound; lia).
    assert (0 ≤ (start + Z.of_nat (S n)) mod sz < sz) as Hw
      by (apply Z.mod_pos_bound; lia).
    change (queued ?b sz start (S (S n)))
      with (match load b start with
            | Some x => x :: queued b sz ((start + 1) mod sz) (S n)
            | None => []
            end).
    rewrite load_insert_ne; [| lia | lia |].
    + change (queued buf sz start (S n))
        with (match load buf start with
              | Some x => x :: queued buf sz ((start + 1) mod sz) n
              | None => []
              end).
      destruct (load_Some buf start) as [x ->]; [lia|].
      replace ((start + Z.of_nat (S n)) mod sz)
        with (((start + 1) mod sz + Z.of_nat n) mod sz).
      * rewrite IH by lia. done.
      * rewrite Z.add_mod_idemp_l by lia. f_equal. lia.
    + rewrite mod_add by lia. case_decide; lia.
Qed.

(** ** The queries on a well-formed ring *)

Lemma ring_full_used r : ring_wf r → ring_full r = true ↔ used r = size r - 1.
Proof.
  intros Hwf. unfold ring_full. rewrite land_mask_mod by done.
  rewrite (range_mask r (wf_range r Hwf)). fold (used r). apply Z.eqb_eq.
Qed.

Lemma ring_empty_used r : ring_in_range r → ring_empty r = true ↔ used r = 0.
Proof.
  intros [Hsz _ Hh Ht _]. unfold ring_empty, used.
  rewrite Z.eqb_eq, mod_diff by lia. case_decide; lia.
Qed.

Lemma ring_space_used r : ring_wf r → ring_space r = size r - 1 - used r.
Proof.
  intros Hwf. pose proof (used_range r (wf_range r Hwf)) as Hu.
  pose proof (range_size r (wf_range r Hwf)) as Hsz.
  unfold ring_space. rewrite land_mask_mod by done. fold (used r).
  rewrite (wrap32_small (size r - used r)) by lia.
  rewrite wrap32_small by lia. lia.
Qed.

Lemma contents_length r :
  ring_in_range r → length (contents r) = Z.to_nat (used r).
Proof.
  intros [Hsz _ _ Ht Hlen]. unfold contents.
  apply queued_length; [done | lia].
Qed.

(** ** [ring_enqueue] and [ring_dequeue] on a well-formed ring *)

Lemma ring_enqueue_full r d :
  ring_full r = true → ring_enqueue r d = Some (false, r).
Proof. intros Hf. unfold ring_enqueue. rewrite Hf. done. Qed.

Lemma ring_enqueue_spec r d :
  ring_wf r → ring_full r = false →
  ∃ r', ring_enqueue r d = Some (true, r') ∧ ring_wf r' ∧
        size r' = size r ∧ mask r' = mask r ∧ tail r' = tail r ∧
        head r' = (head r + 1) mod size r ∧
        used r' = used r + 1 ∧
        contents r' = contents r ++ [d].
Proof.
  intros Hwf Hnf.
  assert (used r ≠ size r - 1) as Hne.
  { intros E. apply (ring_full_used r Hwf) in E. congruence. }
  pose proof (used_range r (wf_range r Hwf)) as Hu.
  pose proof (head_offset r (wf_range r Hwf)) as Hoff.
  pose proof (land_mask_mod r (head r + 1) Hwf) as Hland.
  destruct Hwf as [[Hsz Hm Hh Ht Hlen] Hp].
  unfold ring_enqueue, store. rewrite Hnf. simpl.
  rewrite decide_True by lia. simpl. rewrite Hland.
  eexists. split; [reflexivity|].
  assert (0 ≤ (head r + 1) mod size r < size r) as Hh'
    by (apply Z.mod_pos_bound; lia).
  assert (used {| buffer := <[Z.to_nat (head r) := d]> (buffer r);
                  head := (head r + 1) mod size r; tail := tail r;
                  mask := mask r; size := size r |} = used r + 1) as Hused.
  { assert (1 < size r) by lia.
    unfold used in *. simpl. rewrite (mod_diff _ (head r)) in * by lia.
    rewrite (mod_add _ (head r) 1) by lia.
    repeat case_decide; rewrite mod_diff by lia; repeat case_decide; lia. }
  split; [|repeat split; try done].
  - split; [split; simpl; try done | done].
    rewrite length_insert. done.
  - unfold contents. rewrite Hused. simpl.
    replace (Z.to_nat (used r + 1)) with (S (Z.to_nat (used r))) by lia.
    rewrite <- Hoff at 1.
    rewrite <- (Z2Nat.id (used r)) at 1 by lia.
    apply queued_snoc; [done | lia | lia].
Qed.

Lemma ring_dequeue_empty r out :
  ring_empty r = true → ring_dequeue r out = Some (false, r, out).
Proof. intros He. unfold ring_dequeue. rewrite He. done. Qed.

Lemma ring_dequeue_spec r out :
  ring_wf r → ring_empty r = false →
  ∃ d r', ring_dequeue r out = Some (true, r', d) ∧ ring_wf r' ∧
          size r' = size r ∧ mask r' = mask r ∧ head r' = head r ∧
          tail r' = (tail r + 1) mod size r ∧
          used r' = used r - 1 ∧
          contents r = d :: contents r'.
Proof.
  intros Hwf Hne.
  assert (used r ≠ 0) as Hnz.
  { intros E. apply (ring_empty_used r (wf_range r Hwf)) in E. congruence. }
  pose proof (used_range r (wf_range r Hwf)) as Hu.
  pose proof (land_mask_mod r (tail r + 1) Hwf) as Hland.
  destruct Hwf as [[Hsz Hm Hh Ht Hlen] Hp].
  destruct (load_Some (buffer r) (tail r)) as [x Hx]; [lia|].
  unfold ring_dequeue. rewrite Hne. simpl. rewrite Hx. simpl. rewrite Hland.
  eexists _, _. split; [reflexivity|].
  assert (0 ≤ (tail r + 1) mod size r < size r) as Ht'
    by (apply Z.mod_pos_bound; lia).
  assert (used {| buffer := buffer r; head := head r;
                  tail := (tail r + 1) mod size r;
                  mask := mask r; size := size r |} = used r - 1) as Hused.
  { assert (1 < size r) by lia.
    unfold used in *. simpl. rewrite (mod_diff _ (head r)) in * by lia.
    rewrite (mod_add _ (tail r) 1) by lia.
    repeat case_decide; rewrite mod_diff by lia; repeat case_decide; lia. }
  split; [|repeat split; try done].
  - split; [split; simpl; done | done].
  - unfold contents at 1.
    replace (Z.to_nat (used r)) with (S (Z.to_nat (used r - 1))) by lia.
    simpl. rewrite Hx. unfold contents. rewrite Hused. done.
Qed.

Lemma contents_empty r : ring_in_range r → ring_empty r = true → contents r = [].
Proof.
  intros Hr He. apply (ring_empty_used r Hr) in He.
  unfold contents. rewrite He. done.
Qed.

(** ** The sequential caller on a well-formed ring *)

(** The ring refines a queue: what was in the ring followed by what was
    accepted is what was returned followed by what is left in the ring. *)
Lemma run_spec ops :
  ∀ r out, ring_wf r →
    ∃ r' acc ret, run r out ops = Some (r', acc, ret) ∧ ring_wf r' ∧
                  size r' = size r ∧
                  contents r ++ acc = ret ++ contents r'.
Proof.
  induction ops as [|[d|] ops IH]; intros r out Hwf.
  - exists r, [], []. simpl. rewrite app_nil_r. done.
  - destruct (ring_full r) eqn:Hf.
    + destruct (IH r out Hwf) as (r' & acc & ret & Hrun & Hwf' & Hsz & Hq).
      exists r', acc, ret. simpl. rewrite ring_enqueue_full by done.
      simpl. rewrite Hrun. done.
    + destruct (ring_enqueue_spec r d Hwf Hf)
        as (r1 & Henq & Hwf1 & Hsz1 & _ & _ & _ & _ & Hc1).
      destruct (IH r1 out Hwf1) as (r' & acc & ret & Hrun & Hwf' & Hsz & Hq).
      exists r', (d :: acc), ret. simpl. rewrite Henq. simpl. rewrite Hrun.
      simpl. split_and!; [done | done | congruence |].
      rewrite <- Hq, Hc1, <- app_assoc. done.
  - destruct (ring_empty r) eqn:He.
    + destruct (IH r out Hwf) as (r' & acc & ret & Hrun & Hwf' & Hsz & Hq).
      exists r', acc, ret. simpl. rewrite ring_dequeue_empty by done.
      simpl. rewrite Hrun. done.
    + destruct (ring_dequeue_spec r out Hwf He)
        as (d & r1 & Hdeq & Hwf1 & Hsz1 & _ & _ & _ & _ & Hc1).
      destruct (IH r1 d Hwf1) as (r' & acc & ret & Hrun & Hwf' & Hsz & Hq).
      exists r', acc, (d :: ret). simpl. rewrite Hdeq. simpl. rewrite Hrun.
      simpl. split_and!; [done | done | congruence |].
      rewrite Hc1. simpl. rewrite Hq. done.
Qed.

(** [n] calls of [ring_dequeue] in a row return the [n] oldest
    descriptors of the ring. *)
Lemma run_dequeues n :
  ∀ r out, ring_wf r →
    ∃ r', run r out (replicate n Deq) = Some (r', [], take n (contents r)) ∧
          ring_wf r' ∧ size r' = size r ∧
          contents r' = drop n (contents r).
Proof.
  induction n as [|n IH]; intros r out Hwf.
  - exists r. simpl. rewrite take_0, drop_0. done.
  - destruct (ring_empty r) eqn:He.
    + destruct (IH r out Hwf) as (r' & Hrun & Hwf' & Hsz & Hq).
      exists r'. simpl. rewrite ring_dequeue_empty by done.
      simpl. rewrite Hrun. simpl.
      rewrite Hq, (contents_empty r (wf_range r Hwf) He).
      rewrite take_nil, !drop_nil. done.
    + destruct (ring_dequeue_spec r out Hwf He)
        as (d & r1 & Hdeq & Hwf1 & Hsz1 & _ & _ & _ & _ & Hc1).
      destruct (IH r1 d Hwf1) as (r' & Hrun & Hwf' & Hsz & Hq).
      exists r'. simpl. rewrite Hdeq. simpl. rewrite Hrun. simpl.
      rewrite Hq, Hc1. simpl. split_and!; [done | done | congruence | done].
Qed.

(** Calls of [ring_enqueue] in a row are accepted while there is space;
    the calls of [ring_dequeue] after them return the oldest descriptors
    first. *)
Lemma run_enqueues_dequeues ds :
  ∀ r out n, ring_wf r →
    let acc := take (Z.to_nat (ring_space r)) ds in
    ∃ r', run r out ((Enq <$> ds) ++ replicate n Deq)
          = Some (r', acc, take n (contents r ++ acc)) ∧
          ring_wf r' ∧ size r' = size r ∧
          contents r' = drop n (contents r ++ acc).
Proof.
  induction ds as [|d ds IH]; intros r out n Hwf acc; subst acc.
  - rewrite take_nil, app_nil_r. simpl. apply run_dequeues. done.
  - pose proof (ring_space_used r Hwf) as Hsp.
    pose proof (used_range r (wf_range r Hwf)) as Hu.
    destruct (ring_full r) eqn:Hf.
    + pose proof (proj1 (ring_full_used r Hwf) Hf) as Hfull.
      destruct (IH r out n Hwf) as (r' & Hrun & Hwf' & Hsz & Hq).
      replace (Z.to_nat (ring_space r)) with 0%nat in * by lia.
      rewrite take_0 in *.
      exists r'. simpl. rewrite ring_enqueue_full by done.
      simpl. change (list_fmap _ _ Enq ds) with (Enq <$> ds).
      rewrite Hrun. done.
    + assert (used r ≠ size r - 1) as Hne.
      { intros E. apply (ring_full_used r Hwf) in E. congruence. }
      destruct (ring_enqueue_spec r d Hwf Hf)
        as (r1 & Henq & Hwf1 & Hsz1 & _ & _ & _ & Hu1 & Hc1).
      destruct (IH r1 out n Hwf1) as (r' & Hrun & Hwf' & Hsz & Hq).
      rewrite (ring_space_used r1 Hwf1), Hsz1, Hu1, Hc1 in *.
      replace (Z.to_nat (ring_space r))
        with (S (Z.to_nat (size r - 1 - (used r + 1)))) by lia.
      rewrite <- app_assoc in *. simpl in *.
      exists r'. rewrite Henq. simpl.
      change (list_fmap _ _ Enq ds) with (Enq <$> ds).
      rewrite Hrun. done.
Qed.

(** ** [ring_enqueue_bulk] *)

(** The copy loop stays inside both arrays when every masked index is an
    index of the slot array and [descs] has the items the loop reads. *)
Lemma bulk_copy_defined sz head0 mask0 descs todo :
  (∀ x, 0 ≤ Z.land (wrap32 x) mask0 < sz) →
  ∀ buf i,
    Z.of_nat (length buf) = sz → 0 ≤ i →
    i + Z.of_nat todo ≤ Z.of_nat (length descs) →
    ∃ buf', bulk_copy buf head0 mask0 descs i todo = Some buf' ∧
            length buf' = length buf.
Proof.
  intros Hmask. induction todo as [|todo IH]; intros buf i Hlen Hi Hdescs.
  - exists buf. done.
  - destruct (load_Some descs i) as [d Hd]; [lia|].
    specialize (Hmask (head0 + i)).
    destruct (IH (<[Z.to_nat (Z.land (wrap32 (head0 + i)) mask0) := d]> buf)
                 (i + 1)) as (buf' & Hcopy & Hlen').
    { rewrite length_insert. done. }
    { lia. }
    { lia. }
    exists buf'. simpl. rewrite Hd. simpl. unfold store.
    rewrite decide_True by lia. simpl. rewrite Hcopy.
    rewrite Hlen', length_insert. done.
Qed.

(** On a ring whose capacity is a power of two the loop appends the items
    it reads to the queue, in order. *)
Lemma bulk_copy_spec sz tl n0 head0 mask0 descs todo :
  (∀ x, Z.land (wrap32 x) mask0 = x mod sz) →
  0 ≤ tl < sz → 0 ≤ n0 → head0 = (tl + n0) mod sz →
  ∀ buf i,
    Z.of_nat (length buf) = sz → 0 ≤ i →
    n0 + i + Z.of_nat todo < sz →
    i + Z.of_nat todo ≤ Z.of_nat (length descs) →
    ∃ buf', bulk_copy buf head0 mask0 descs i todo = Some buf' ∧
            length buf' = length buf ∧
            queued buf' sz tl (Z.to_nat (n0 + i) + todo)
            = queued buf sz tl (Z.to_nat (n0 + i))
              ++ take todo (drop (Z.to_nat i) descs).
Proof.
  intros Hmask Htl Hn0 Hhead.
  induction todo as [|todo IH]; intros buf i Hlen Hi Hroom Hdescs.
  - exists buf. rewrite Nat.add_0_r, take_0, app_nil_r. done.
  - destruct (load_Some descs i) as [d Hd]; [lia|].
    assert (Z.land (wrap32 (head0 + i)) mask0 = (tl + (n0 + i)) mod sz) as Hidx.
    { rewrite Hmask, Hhead, Z.add_mod_idemp_l by lia. f_equal. lia. }
    assert (0 ≤ (tl + (n0 + i)) mod sz < sz) as Hrange
      by (apply Z.mod_pos_bound; lia).
    destruct (IH (<[Z.to_nat ((tl + (n0 + i)) mod sz) := d]> buf) (i + 1))
      as (buf' & Hcopy & Hlen' & Hq).
    { rewrite length_insert. done. }
    { lia. }
    { lia. }
    { lia. }
    exists buf'. simpl. rewrite Hd. simpl. unfold store.
    rewrite Hidx, decide_True by lia. simpl. rewrite Hcopy.
    split; [done|]. split; [rewrite Hlen', length_insert; done|].
    replace (Z.to_nat (n0 + i) + S todo)%nat
      with (Z.to_nat (n0 + (i + 1)) + todo)%nat by lia.
    rewrite Hq.
    replace (Z.to_nat (n0 + (i + 1))) with (S (Z.to_nat (n0 + i))) by lia.
    rewrite <- (Z2Nat.id (n0 + i)) at 1 by lia.
    rewrite queued_snoc by lia.
    unfold load in Hd. rewrite decide_True in Hd by lia.
    rewrite (drop_S descs d (Z.to_nat i)) by done.
    replace (Z.to_nat (i + 1)) with (S (Z.to_nat i)) by lia.
    rewrite <- app_assoc. done.
Qed.

Lemma ring_enqueue_bulk_spec r descs count :
  ring_wf r → 0 ≤ count ≤ Z.of_nat (length descs) →
  let n := Z.min count (ring_space r) in
  ∃ r', ring_enqueue_bulk r descs count = Some (n, r', descs) ∧ ring_wf r' ∧
        size r' = size r ∧ mask r' = mask r ∧ tail r' = tail r ∧
        head r' = (head r + n) mod size r ∧
        used r' = used r + n ∧
        contents r' = contents r ++ take (Z.to_nat n) descs ∧
        (n = 0 → r' = r).
Proof.
  intros Hwf Hcount n.
  pose proof (ring_space_used r Hwf) as Hsp.
  pose proof (used_range r (wf_range r Hwf)) as Hu.
  pose proof (head_offset r (wf_range r Hwf)) as Hoff.
  pose proof (λ x, land_mask_mod r x Hwf) as Hmask.
  assert ((if count <? ring_space r then count else ring_space r) = n) as Hn.
  { subst n. destruct (Z.ltb_spec count (ring_space r)); lia. }
  unfold ring_enqueue_bulk. simpl. rewrite Hn.
  destruct (Z.eqb_spec n 0) as [Hz|Hnz].
  - exists r. rewrite Hz. simpl. rewrite app_nil_r, Z.add_0_r.
    destruct Hwf as [[Hsz Hm Hh Ht Hlen] Hp].
    rewrite (Z.mod_small (head r)) by lia. rewrite Z.add_0_r. done.
  - destruct Hwf as [[Hsz Hm Hh Ht Hlen] Hp].
    destruct (bulk_copy_spec (size r) (tail r) (used r) (head r) (mask r)
                descs (Z.to_nat n) Hmask Ht (proj1 Hu) (eq_sym Hoff)
                (buffer r) 0 Hlen)
      as (buf' & Hcopy & Hlen' & Hq); [lia | lia | lia |].
    rewrite Hcopy. simpl. rewrite Hmask.
    eexists. split; [reflexivity|].
    assert (0 ≤ (head r + n) mod size r < size r) as Hh'
      by (apply Z.mod_pos_bound; lia).
    assert (used {| buffer := buf'; head := (head r + n) mod size r;
                    tail := tail r; mask := mask r; size := size r |}
            = used r + n) as Hused.
    { unfold used at 1. simpl. rewrite <- Hoff.
      rewrite Z.add_mod_idemp_l, Zminus_mod_idemp_l by lia.
      replace (tail r + used r + n - tail r) with (used r + n) by lia.
      apply Z.mod_small. lia. }
    split_and!; simpl; try done.
    + split; [split; simpl; try done | done]. lia.
    + unfold contents. rewrite Hused. simpl.
      rewrite Z.add_0_r, drop_0 in Hq. rewrite <- Hq. f_equal. lia.
Qed.

(** ** Rings of any capacity from 1 on: the indices stay in range *)

Lemma malloc_length junk n : length (malloc junk n) = Z.to_nat n.
Proof. unfold malloc. rewrite length_fmap, length_seq. done. Qed.

Lemma ring_init_in_range junk r0 sz :
  0 < sz < 2 ^ 32 → ring_in_range (ring_init junk r0 sz).
Proof.
  intros Hsz. split; simpl; [done | | lia | lia |].
  - apply wrap32_small. lia.
  - rewrite malloc_length. lia.
Qed.

Lemma ring_init_wf junk r0 sz :
  power_of_two sz → sz < 2 ^ 32 → ring_wf (ring_init junk r0 sz).
Proof.
  intros Hp Hlt. split; [|done]. apply ring_init_in_range.
  destruct Hp as (k & Hk & ->). split; [|done]. apply Z.pow_pos_nonneg; lia.
Qed.

Lemma ring_enqueue_in_range r d :
  ring_in_range r →
  ∃ ok r', ring_enqueue r d = Some (ok, r') ∧ ring_in_range r' ∧
           size r' = size r.
Proof.
  intros Hr. pose proof (land_mask_range r (head r + 1) Hr) as Hland.
  destruct Hr as [Hsz Hm Hh Ht Hlen]. unfold ring_enqueue.
  destruct (ring_full r).
  - exists false, r. done.
  - unfold store. rewrite decide_True by lia. simpl.
    eexists true, _. split; [reflexivity|]. split; [|done].
    split; simpl; try done. rewrite length_insert. done.
Qed.

Lemma ring_dequeue_in_range r out :
  ring_in_range r →
  ∃ ok r' out', ring_dequeue r out = Some (ok, r', out') ∧ ring_in_range r' ∧
                size r' = size r.
Proof.
  intros Hr. pose proof (land_mask_range r (tail r + 1) Hr) as Hland.
  destruct Hr as [Hsz Hm Hh Ht Hlen]. unfold ring_dequeue.
  destruct (ring_empty r).
  - exists false, r, out. done.
  - destruct (load_Some (buffer r) (tail r)) as [x ->]; [lia|]. simpl.
    eexists true, _, x. split; [reflexivity|]. split; [|done].
    split; simpl; done.
Qed.

Lemma ring_space_range r : ring_in_range r → 0 ≤ ring_space r < size r.
Proof.
  intros Hr.
  pose proof (land_mask_range r (head r - tail r) Hr) as Hland.
  destruct Hr as [Hsz Hm Hh Ht Hlen]. unfold ring_space.
  rewrite (wrap32_small (size r - _)) by lia.
  rewrite wrap32_small by lia. lia.
Qed.

Lemma ring_enqueue_bulk_in_range r descs count :
  ring_in_range r → 0 ≤ count ≤ Z.of_nat (length descs) →
  ∃ n r' descs', ring_enqueue_bulk r descs count = Some (n, r', descs') ∧
                 ring_in_range r' ∧ size r' = size r.
Proof.
  intros Hr Hcount. pose proof (ring_space_range r Hr) as Hsp.
  pose proof (λ x, land_mask_range r x Hr) as Hmask.
  destruct Hr as [Hsz Hm Hh Ht Hlen]. unfold ring_enqueue_bulk. simpl.
  set (n := if count <? ring_space r then count else ring_space r).
  assert (0 ≤ n ≤ count) as Hn.
  { subst n. destruct (Z.ltb_spec count (ring_space r)); lia. }
  destruct (Z.eqb_spec n 0) as [Hz|Hnz].
  - exists 0, r, descs. done.
  - destruct (bulk_copy_defined (size r) (head r) (mask r) descs (Z.to_nat n)
                Hmask (buffer r) 0 Hlen)
      as (buf' & -> & Hlen'); [lia | lia |]. simpl.
    eexists n, _, descs. split; [reflexivity|]. split; [|done].
    split; simpl; try done. lia.
Qed.

Lemma bulk_copy_length head0 mask0 descs todo :
  ∀ buf i buf',
    bulk_copy buf head0 mask0 descs i todo = Some buf' →
    length buf' = length buf.
Proof.
  induction todo as [|todo IH]; intros buf i buf' Hcopy; simpl in Hcopy.
  - by simplify_eq.
  - destruct (load descs i) as [x|]; [|done]. simpl in Hcopy.
    unfold store in Hcopy. case_decide; [|done]. simpl in Hcopy.
    apply IH in Hcopy. rewrite Hcopy, length_insert. done.
Qed.

Lemma reachable_in_range junk sz r :
  0 < sz < 2 ^ 32 → reachable junk sz r → ring_in_range r ∧ size r = sz.
Proof.
  intros Hsz Hreach.
  induction Hreach
    as [r0 | r d ok r' _ [IH1 IH2] Hstep | r out ok r' out' _ [IH1 IH2] Hstep
        | r p r' _ IH Hstep | r descs count n r' descs' _ [IH1 IH2] Hstep].
  - split; [apply ring_init_in_range; done | done].
  - unfold ring_enqueue in Hstep. destruct (ring_full r).
    + by simplify_eq.
    + pose proof (land_mask_range r (head r + 1) IH1) as Hland.
      destruct IH1 as [? ? ? ? Hlen].
      destruct (store (buffer r) (head r) d) as [buf|] eqn:Hst; [|done].
      unfold store in Hst. case_decide; [|done]. simplify_eq/=.
      split; [|done]. split; simpl; try done. rewrite length_insert. done.
  - unfold ring_dequeue in Hstep. destruct (ring_empty r).
    + by simplify_eq.
    + pose proof (land_mask_range r (tail r + 1) IH1) as Hland.
      destruct IH1 as [? ? ? ? Hlen].
      destruct (load (buffer r) (tail r)) as [x|]; [|done]. simplify_eq/=.
      split; [|done]. split; simpl; done.
  - unfold ring_peek in Hstep. destruct (ring_empty r); by simplify_eq.
  - unfold ring_enqueue_bulk in Hstep. cbv zeta in Hstep.
    destruct (_ =? 0); [by simplify_eq|].
    destruct (bulk_copy _ _ _ _ _ _) as [buf|] eqn:Hcopy; [|done].
    apply bulk_copy_length in Hcopy. simplify_eq/=. split; [|done].
    pose proof (λ x, land_mask_range r x IH1) as Hland.
    destruct IH1 as [? ? ? ? Hlen]. split; simpl; try done. lia.
Qed.

(** ** The scenario of the specification, step by step *)

Example ring4_one_reached :
  run ring4 desc0 [Enq descA] = Some (ring4_one, [descA], []).
Proof. vm_compute. reflexivity. Qed.

Example ring4_wrapping_reached :
  run ring4 desc0 [Enq descA; Enq descB; Enq descC; Deq]
  = Some (ring4_wrapping, [descA; descB; descC], [descA]).
Proof. vm_compute. reflexivity. Qed.

(** ** The properties of the specification *)

(** C1, FIFO order.  On a ring of power-of-two capacity that is empty, a
    sequence of calls of [ring_enqueue] followed by [n] calls of
    [ring_dequeue] runs without an access outside of the slot array; the
    descriptors [ring_dequeue] returns are the first [n] descriptors that
    [ring_enqueue] accepted, in the order they were enqueued, and all of
    them once [n] reaches their number.  ([ring_enqueue] accepts the
    descriptors it is given until the ring is full, that is the first
    [size - 1] of them.) *)
Theorem fifo_order r out ds n :
  ring_wf r → ring_empty r = true →
  ∃ r' accepted returned,
    run r out ((Enq <$> ds) ++ replicate n Deq) = Some (r', accepted, returned) ∧
    accepted = take (Z.to_nat (size r - 1)) ds ∧
    returned = take n accepted ∧
    (length accepted ≤ n → returned = accepted)%nat.
Proof.
  intros Hwf He.
  destruct (run_enqueues_dequeues ds r out n Hwf) as (r' & Hrun & _).
  rewrite (contents_empty r (wf_range r Hwf) He) in Hrun. simpl in Hrun.
  rewrite (ring_space_used r Hwf) in Hrun.
  rewrite (proj1 (ring_empty_used r (wf_range r Hwf)) He), Z.sub_0_r in Hrun.
  eexists r', _, _. split; [exact Hrun|]. split; [done|]. split; [done|].
  intros Hn. apply take_ge. exact Hn.
Qed.

Lemma fifo_order_witness :
  ring_wf ring4 ∧ ring_empty ring4 = true ∧
  ∃ r' accepted returned,
    run ring4 desc0 ((Enq <$> [descA; descB; descC; descD]) ++ replicate 5 Deq)
    = Some (r', accepted, returned) ∧
    accepted = take (Z.to_nat (size ring4 - 1)) [descA; descB; descC; descD] ∧
    returned = take 5 accepted ∧
    (length accepted ≤ 5 → returned = accepted)%nat.
Proof.
  split; [concrete_wf 2|]. split; [reflexivity|].
  apply (fifo_order ring4 desc0 [descA; descB; descC; descD] 5);
    [concrete_wf 2 | reflexivity].
Defined.

(** C2, capacity bound.  On a ring of power-of-two capacity [C] that is
    empty, [C - 1] calls of [ring_enqueue] in a row all succeed (every one
    of the descriptors is accepted); the ring is then full, and one more
    call returns false and leaves the ring as it is. *)
Theorem capacity_bound r out ds d :
  ring_wf r → ring_empty r = true → Z.of_nat (length ds) = size r - 1 →
  ∃ r1, run r out (Enq <$> ds) = Some (r1, ds, []) ∧
        ring_full r1 = true ∧
        ring_enqueue r1 d = Some (false, r1).
Proof.
  intros Hwf He Hlen.
  destruct (run_enqueues_dequeues ds r out 0 Hwf)
    as (r1 & Hrun & Hwf1 & Hsz1 & Hc1).
  rewrite (contents_empty r (wf_range r Hwf) He) in *.
  rewrite (ring_space_used r Hwf) in *.
  rewrite (proj1 (ring_empty_used r (wf_range r Hwf)) He), Z.sub_0_r in *.
  simpl in Hrun, Hc1. rewrite app_nil_r in Hrun.
  rewrite take_ge in * by lia. rewrite drop_0 in Hc1.
  assert (ring_full r1 = true) as Hfull.
  { apply (ring_full_used r1 Hwf1).
    pose proof (contents_length r1 (wf_range r1 Hwf1)) as Hcl.
    pose proof (used_range r1 (wf_range r1 Hwf1)).
    rewrite Hc1 in Hcl. lia. }
  exists r1. split; [done|]. split; [done|].
  apply ring_enqueue_full. done.
Qed.

Lemma capacity_bound_witness :
  ring_wf ring4 ∧ ring_empty ring4 = true ∧
  Z.of_nat (length [descA; descB; descC]) = size ring4 - 1 ∧
  ∃ r1, run ring4 desc0 (Enq <$> [descA; descB; descC])
        = Some (r1, [descA; descB; descC], []) ∧
        ring_full r1 = true ∧
        ring_enqueue r1 descD = Some (false, r1).
Proof.
  split; [concrete_wf 2|]. split; [reflexivity|]. split; [reflexivity|].
  apply (capacity_bound ring4 desc0 [descA; descB; descC] descD);
    [concrete_wf 2 | reflexivity | reflexivity].
Defined.

Lemma five_not_power_of_two : ¬ power_of_two 5.
Proof.
  intros (k & Hk & Hpow).
  destruct (Z.lt_ge_cases k 3) as [Hlt|Hge].
  - assert (k = 0 ∨ k = 1 ∨ k = 2) as [-> | [-> | ->]] by lia; discriminate.
  - pose proof (Z.pow_le_mono_r 2 3 k ltac:(lia) Hge). lia.
Qed.

(** C3, counterexample.  [ring_init] has no check of the capacity and no
    way to report a failure: with 5, which is not a power of two, and
    with 0 it does not leave [*ring] as it was but builds a ring all the
    same, with [mask = size - 1] modulo [2^32]. *)
Lemma ring_init_takes_5_and_0 :
  ¬ power_of_two 5 ∧
  ¬ (∀ junk ring, ring_init junk ring 5 = ring) ∧
  ¬ (∀ junk ring, ring_init junk ring 0 = ring) ∧
  ring_init (λ _, desc0) no_ring 5
  = mk_ring [desc0; desc0; desc0; desc0; desc0] 0 0 4 5 ∧
  ring_init (λ _, desc0) no_ring 0 = mk_ring [] 0 0 4294967295 0.
Proof.
  split; [exact five_not_power_of_two|].
  split; [intros H; specialize (H (λ _, desc0) no_ring); discriminate|].
  split; [intros H; specialize (H (λ _, desc0) no_ring); discriminate|].
  split; vm_compute; reflexivity.
Qed.

(** C3, amended.  [ring_init] never fails and validates nothing: whatever
    the capacity, zero and non powers of two included, it allocates that
    many slots, sets both indices to 0, stores the capacity and stores
    [capacity - 1] reduced modulo [2^32] as the mask; with capacity 8 the
    space of the new ring is 7. *)
Theorem ring_init_any_capacity junk ring sz :
  let r := ring_init junk ring sz in
  (head r = 0 ∧ tail r = 0 ∧ size r = sz ∧ mask r = wrap32 (sz - 1) ∧
   length (buffer r) = Z.to_nat sz ∧ ring_empty r = true) ∧
  ring_space (ring_init junk ring 8) = 7.
Proof.
  simpl. rewrite malloc_length. split_and!; reflexivity.
Qed.

(** C4, bulk partial acceptance.  On a ring of power-of-two capacity,
    [ring_enqueue_bulk] with an array of at least [count] items returns
    [n = min(count, space)] and leaves the caller's array as it was; the
    [n] first items are appended to the queue in order, nothing else is,
    and the ring has [n] more descriptors in flight.  With [n = 0] the
    ring is unchanged; with [count > space] the number is [space]. *)
Theorem bulk_partial_acceptance r descs count :
  ring_wf r → 0 ≤ count ≤ Z.of_nat (length descs) →
  let n := Z.min count (ring_space r) in
  ∃ r', ring_enqueue_bulk r descs count = Some (n, r', descs) ∧
        contents r' = contents r ++ take (Z.to_nat n) descs ∧
        used r' = used r + n ∧
        ring_space r' = ring_space r - n ∧
        head r' = (head r + n) mod size r ∧ tail r' = tail r ∧
        (n = 0 → r' = r) ∧
        (ring_space r < count → n = ring_space r).
Proof.
  intros Hwf Hcount n.
  destruct (ring_enqueue_bulk_spec r descs count Hwf Hcount)
    as (r' & Hbulk & Hwf' & Hsz & _ & Ht & Hh & Hu & Hc & Hz).
  exists r'. fold n in Hbulk, Hh, Hu, Hc, Hz.
  split_and!; try done.
  - rewrite (ring_space_used r' Hwf'), (ring_space_used r Hwf). lia.
  - subst n. lia.
Qed.

Example bulk_capacity_4 :
  ring_enqueue_bulk ring4_one [descB; descC; descD; descA] 4
  = Some (2, mk_ring [descA; descB; descC; desc0] 3 0 3 4,
          [descB; descC; descD; descA]).
Proof. vm_compute. reflexivity. Qed.

Lemma bulk_partial_acceptance_witness :
  ring_wf ring4_one ∧
  0 ≤ 4 ≤ Z.of_nat (length [descB; descC; descD; descA]) ∧
  let descs := [descB; descC; descD; descA] in
  let n := Z.min 4 (ring_space ring4_one) in
  ∃ r', ring_enqueue_bulk ring4_one descs 4 = Some (n, r', descs) ∧
        contents r' = contents ring4_one ++ take (Z.to_nat n) descs ∧
        used r' = used ring4_one + n ∧
        ring_space r' = ring_space ring4_one - n ∧
        head r' = (head ring4_one + n) mod size ring4_one ∧
        tail r' = tail ring4_one ∧
        (n = 0 → r' = ring4_one) ∧
        (ring_space ring4_one < 4 → n = ring_space ring4_one).
Proof.
  split; [concrete_wf 2|]. split; [vm_compute; split; congruence|].
  apply (bulk_partial_acceptance ring4_one [descB; descC; descD; descA] 4);
    [concrete_wf 2 | vm_compute; split; congruence].
Defined.

(** C5, field fidelity.  A descriptor [d] enqueued into a ring of
    power-of-two capacity that is not full is accepted.  Calls of
    [ring_dequeue] then return the descriptors that were in the ring
    before it, oldest first, and after them a descriptor equal to [d] in
    every field: one call more than the ring held descriptors returns
    exactly the old content followed by [d], and leaves the ring empty.
    The same holds with other calls in between: whatever calls of
    [ring_enqueue] and [ring_dequeue] follow the enqueue of [d], the
    descriptor they return at the position of [d] is equal to [d] in
    every field. *)
Theorem field_fidelity r d out :
  ring_wf r → ring_full r = false →
  ∃ r1, ring_enqueue r d = Some (true, r1) ∧
    (∃ r2 returned d',
       run r1 out (replicate (S (length (contents r))) Deq)
       = Some (r2, [], returned) ∧
       returned = contents r ++ [d] ∧
       returned !! length (contents r) = Some d' ∧
       data d' = data d ∧ paddr d' = paddr d ∧ len d' = len d ∧
       flags d' = flags d ∧ timestamp d' = timestamp d ∧
       ring_empty r2 = true) ∧
    (∀ ops, ∃ r2 accepted returned,
       run r1 out ops = Some (r2, accepted, returned) ∧
       ∀ d', returned !! length (contents r) = Some d' →
             data d' = data d ∧ paddr d' = paddr d ∧ len d' = len d ∧
             flags d' = flags d ∧ timestamp d' = timestamp d).
Proof.
  intros Hwf Hnf.
  destruct (ring_enqueue_spec r d Hwf Hnf)
    as (r1 & Henq & Hwf1 & _ & _ & _ & _ & _ & Hc1).
  exists r1. split; [done|]. split.
  - destruct (run_dequeues (S (length (contents r))) r1 out Hwf1)
      as (r2 & Hrun & Hwf2 & _ & Hc2).
    assert (length (contents r1) = S (length (contents r))) as Hlen.
    { rewrite Hc1, length_app. simpl. lia. }
    rewrite take_ge in Hrun by lia. rewrite drop_ge in Hc2 by lia.
    exists r2, (contents r1), d. rewrite Hc1 in *.
    split; [done|]. split; [done|].
    split; [apply list_lookup_middle; done|].
    split_and!; try done.
    apply (ring_empty_used r2 (wf_range r2 Hwf2)).
    pose proof (contents_length r2 (wf_range r2 Hwf2)) as Hcl.
    pose proof (used_range r2 (wf_range r2 Hwf2)) as Hu.
    rewrite Hc2 in Hcl. simpl in Hcl. lia.
  - intros ops.
    destruct (run_spec ops r1 out Hwf1) as (r2 & acc & ret & Hrun & _ & _ & Hq).
    exists r2, acc, ret. split; [done|].
    intros d' Hd'.
    assert ((ret ++ contents r2) !! length (contents r) = Some d') as Hlook.
    { apply lookup_app_l_Some. done. }
    rewrite <- Hq, Hc1, <- app_assoc in Hlook. simpl in Hlook.
    rewrite list_lookup_middle in Hlook by done.
    by simplify_eq.
Qed.

Lemma field_fidelity_witness :
  ring_wf ring4_one ∧ ring_full ring4_one = false ∧
  ring_enqueue ring4_one descB
  = Some (true, mk_ring [descA; descB; desc0; desc0] 2 0 3 4) ∧
  (∃ r2 returned d',
     run (mk_ring [descA; descB; desc0; desc0] 2 0 3 4) desc0
       (replicate (S (length (contents ring4_one))) Deq)
     = Some (r2, [], returned) ∧
     returned = contents ring4_one ++ [descB] ∧
     returned !! length (contents ring4_one) = Some d' ∧
     data d' = data descB ∧ paddr d' = paddr descB ∧ len d' = len descB ∧
     flags d' = flags descB ∧ timestamp d' = timestamp descB ∧
     ring_empty r2 = true) ∧
  (∃ r2 accepted returned d',
     run (mk_ring [descA; descB; desc0; desc0] 2 0 3 4) desc0
       [Deq; Enq descC; Deq; Deq]
     = Some (r2, accepted, returned) ∧
     returned !! length (contents ring4_one) = Some d' ∧
     data d' = data descB ∧ paddr d' = paddr descB ∧ len d' = len descB ∧
     flags d' = flags descB ∧ timestamp d' = timestamp descB).
Proof.
  split; [concrete_wf 2|]. split; [reflexivity|].
  destruct (field_fidelity ring4_one descB desc0)
    as (r1 & Henq & Hdrain & Hany); [concrete_wf 2 | reflexivity |].
  vm_compute in Henq. injection Henq as <-.
  split; [vm_compute; reflexivity|]. split; [exact Hdrain|].
  destruct (Hany [Deq; Enq descC; Deq; Deq])
    as (r2 & acc & ret & Hrun & Hfields).
  vm_compute in Hrun. injection Hrun as <- <- <-.
  eexists _, _, _, descB. split; [vm_compute; reflexivity|].
  split; [reflexivity|]. apply Hfields. reflexivity.
Defined.

Example round_trip_capacity_4 :
  let r1 := mk_ring [descA; descB; desc0; desc0] 2 0 3 4 in
  ring_enqueue ring4_one descB = Some (true, r1) ∧
  run r1 desc0 [Deq; Enq descC; Deq; Deq]
  = Some (mk_ring [descA; descB; descC; desc0] 3 3 3 4,
          [descC], [descA; descB; descC]).
Proof. split; vm_compute; reflexivity. Qed.

(** C6, space accounting.  On a ring of power-of-two capacity
    [ring_space] is [size - ((head - tail) & mask) - 1], without
    wrap-around; and when calls of [ring_enqueue] and [ring_dequeue] on an
    empty ring have accepted [k] descriptors and returned [j], then
    [j <= k], [k - j <= size - 1] and the space is
    [size - 1 - (k - j)]. *)
Theorem space_accounting r out ops :
  ring_wf r →
  ring_space r = size r - Z.land (wrap32 (head r - tail r)) (mask r) - 1 ∧
  (ring_empty r = true →
   ∃ r' accepted returned,
     run r out ops = Some (r', accepted, returned) ∧
     let k := Z.of_nat (length accepted) in
     let j := Z.of_nat (length returned) in
     j ≤ k ∧ k - j ≤ size r - 1 ∧
     size r' = size r ∧
     ring_space r' = size r - 1 - (k - j)).
Proof.
  intros Hwf. split.
  - rewrite (ring_space_used r Hwf), (land_mask_mod r _ Hwf). unfold used. lia.
  - intros He.
    destruct (run_spec ops r out Hwf) as (r' & acc & ret & Hrun & Hwf' & Hsz & Hq).
    exists r', acc, ret. split; [done|].
    rewrite (contents_empty r (wf_range r Hwf) He) in Hq. simpl in Hq.
    pose proof (contents_length r' (wf_range r' Hwf')) as Hcl.
    pose proof (used_range r' (wf_range r' Hwf')) as Hu.
    pose proof (f_equal length Hq) as Hlen. rewrite length_app in Hlen.
    simpl. rewrite (ring_space_used r' Hwf'). split_and!; lia.
Qed.

Lemma space_accounting_witness :
  ring_wf ring4 ∧
  ring_space ring4
  = size ring4 - Z.land (wrap32 (head ring4 - tail ring4)) (mask ring4) - 1 ∧
  ∃ r' accepted returned,
    run ring4 desc0 [Enq descA; Enq descB; Deq; Enq descC]
    = Some (r', accepted, returned) ∧
    let k := Z.of_nat (length accepted) in
    let j := Z.of_nat (length returned) in
    j ≤ k ∧ k - j ≤ size ring4 - 1 ∧
    size r' = size ring4 ∧
    ring_space r' = size ring4 - 1 - (k - j).
Proof.
  split; [concrete_wf 2|].
  destruct (space_accounting ring4 desc0 [Enq descA; Enq descB; Deq; Enq descC])
    as [Hspace Hrun]; [concrete_wf 2|].
  split; [exact Hspace|]. apply Hrun. reflexivity.
Defined.

(** C7, counterexample.  Capacity 4, reached from [ring_init] by three
    accepted descriptors and one returned: the head is 3, the next
    enqueue succeeds and stores 0 as the head, not 4. *)
Lemma head_wraps_at_capacity :
  run ring4 desc0 [Enq descA; Enq descB; Enq descC; Deq]
  = Some (ring4_wrapping, [descA; descB; descC], [descA]) ∧
  ∃ r', ring_enqueue ring4_wrapping descD = Some (true, r') ∧
        head ring4_wrapping = 3 ∧ head r' = 0 ∧
        head r' ≠ head ring4_wrapping + 1 ∧
        head r' ≠ wrap32 (head ring4_wrapping + 1).
Proof.
  split; [vm_compute; reflexivity|].
  exists (mk_ring [descA; descB; descC; descD] 0 1 3 4).
  split_and!; vm_compute; congruence.
Qed.

(** C7, amended.  On a ring of power-of-two capacity, after every
    successful enqueue the stored head is the previous head plus one,
    masked: [(head + 1) & mask], which is [(head + 1) mod size]; the tail
    is unchanged.  After every successful dequeue the stored tail is
    [(tail + 1) & mask = (tail + 1) mod size]; the head is unchanged.
    The indices stay below the capacity: they wrap to 0 at the capacity,
    not at the 32-bit boundary. *)
Theorem index_arithmetic r :
  ring_wf r →
  (∀ d r', ring_enqueue r d = Some (true, r') →
           head r' = Z.land (wrap32 (head r + 1)) (mask r) ∧
           head r' = (head r + 1) mod size r ∧ 0 ≤ head r' < size r ∧
           tail r' = tail r) ∧
  (∀ out r' d', ring_dequeue r out = Some (true, r', d') →
                tail r' = Z.land (wrap32 (tail r + 1)) (mask r) ∧
                tail r' = (tail r + 1) mod size r ∧ 0 ≤ tail r' < size r ∧
                head r' = head r).
Proof.
  intros Hwf. pose proof (range_size r (wf_range r Hwf)) as Hsz. split.
  - intros d r' Henq. unfold ring_enqueue in Henq.
    destruct (ring_full r); [done|].
    destruct (store (buffer r) (head r) d) as [buf|]; [|done].
    simplify_eq/=. rewrite (land_mask_mod r _ Hwf).
    split_and!; try done; apply Z.mod_pos_bound; lia.
  - intros out r' d' Hdeq. unfold ring_dequeue in Hdeq.
    destruct (ring_empty r); [done|].
    destruct (load (buffer r) (tail r)) as [x|]; [|done].
    simplify_eq/=. rewrite (land_mask_mod r _ Hwf).
    split_and!; try done; apply Z.mod_pos_bound; lia.
Qed.

Lemma index_arithmetic_witness :
  ring_wf ring4_wrapping ∧
  (let r' := mk_ring [descA; descB; descC; descD] 0 1 3 4 in
   head r' = Z.land (wrap32 (head ring4_wrapping + 1)) (mask ring4_wrapping) ∧
   head r' = (head ring4_wrapping + 1) mod size ring4_wrapping ∧
   0 ≤ head r' < size ring4_wrapping ∧
   tail r' = tail ring4_wrapping) ∧
  (let r' := mk_ring [descA; descB; descC; desc0] 3 2 3 4 in
   tail r' = Z.land (wrap32 (tail ring4_wrapping + 1)) (mask ring4_wrapping) ∧
   tail r' = (tail ring4_wrapping + 1) mod size ring4_wrapping ∧
   0 ≤ tail r' < size ring4_wrapping ∧
   head r' = head ring4_wrapping).
Proof.
  split; [concrete_wf 2|].
  destruct (index_arithmetic ring4_wrapping) as [Henq Hdeq]; [concrete_wf 2|].
  split.
  - apply (Henq descD). reflexivity.
  - apply (Hdeq desc0 _ descB). reflexivity.
Defined.

(** C9, indices within the slot array.  For a capacity from 1 up to
    [2^32 - 1] (every power of two among them), in every state that calls
    of [ring_enqueue], [ring_dequeue], [ring_peek] and
    [ring_enqueue_bulk] reach after [ring_init], the stored head and tail
    are below the capacity, which is the number of allocated slots; the
    slots [buffer[head]] and [buffer[tail]] exist, and the next call of
    each operation makes no access outside of the slot array
    ([ring_enqueue_bulk] being given an array of at least [count]
    items). *)
Theorem indices_within_slot_array junk sz r :
  0 < sz < 2 ^ 32 → reachable junk sz r →
  size r = sz ∧ Z.of_nat (length (buffer r)) = sz ∧
  mask r = sz - 1 ∧
  0 ≤ head r < sz ∧ 0 ≤ tail r < sz ∧
  is_Some (load (buffer r) (head r)) ∧
  is_Some (load (buffer r) (tail r)) ∧
  (∀ d, is_Some (ring_enqueue r d)) ∧
  (∀ out, is_Some (ring_dequeue r out)) ∧
  (∀ descs count, 0 ≤ count ≤ Z.of_nat (length descs) →
                  is_Some (ring_enqueue_bulk r descs count)).
Proof.
  intros Hsz Hreach.
  destruct (reachable_in_range junk sz r Hsz Hreach) as [Hr <-].
  pose proof Hr as [_ Hm Hh Ht Hlen].
  split_and!; try done; try lia.
  - destruct (load_Some (buffer r) (head r)) as [x ->]; [lia | done].
  - destruct (load_Some (buffer r) (tail r)) as [x ->]; [lia | done].
  - intros d. destruct (ring_enqueue_in_range r d Hr) as (? & ? & -> & _). done.
  - intros out.
    destruct (ring_dequeue_in_range r out Hr) as (? & ? & ? & -> & _). done.
  - intros descs count Hcount.
    destruct (ring_enqueue_bulk_in_range r descs count Hr Hcount)
      as (? & ? & ? & -> & _). done.
Qed.

Lemma ring4_wrapping_reachable : reachable (λ _, desc0) 4 ring4_wrapping.
Proof.
  apply (reach_dequeue _ _ (mk_ring [descA; descB; descC; desc0] 3 0 3 4)
           desc0 true _ descA); [|reflexivity].
  apply (reach_enqueue_bulk _ _ (mk_ring [descA; desc0; desc0; desc0] 1 0 3 4)
           [descB; descC; descD] 3 2 _ [descB; descC; descD]); [|reflexivity].
  apply (reach_enqueue _ _ (ring_init (λ _, desc0) no_ring 4) descA true);
    [|reflexivity].
  apply reach_init.
Defined.

Lemma indices_within_slot_array_witness :
  0 < 4 < 2 ^ 32 ∧ reachable (λ _, desc0) 4 ring4_wrapping ∧
  size ring4_wrapping = 4 ∧ Z.of_nat (length (buffer ring4_wrapping)) = 4 ∧
  mask ring4_wrapping = 4 - 1 ∧
  0 ≤ head ring4_wrapping < 4 ∧ 0 ≤ tail ring4_wrapping < 4 ∧
  is_Some (load (buffer ring4_wrapping) (head ring4_wrapping)) ∧
  is_Some (load (buffer ring4_wrapping) (tail ring4_wrapping)) ∧
  (∀ d, is_Some (ring_enqueue ring4_wrapping d)) ∧
  (∀ out, is_Some (ring_dequeue ring4_wrapping out)) ∧
  (∀ descs count, 0 ≤ count ≤ Z.of_nat (length descs) →
                  is_Some (ring_enqueue_bulk ring4_wrapping descs count)).
Proof.
  split; [lia|]. split; [exact ring4_wrapping_reachable|].
  apply (indices_within_slot_array (λ _, desc0) 4 ring4_wrapping);
    [lia | exact ring4_wrapping_reachable].
Defined.

(** C10, empty ring.  Whenever [head = tail], whatever else the ring
    holds, [ring_dequeue] returns false and leaves the ring and the
    caller's descriptor as they were, and [ring_peek] returns [NULL] and
    leaves the ring as it was. *)
Theorem empty_ring_behaviour r out :
  head r = tail r →
  ring_dequeue r out = Some (false, r, out) ∧ ring_peek r = (NULL, r).
Proof.
  intros He. unfold ring_dequeue, ring_peek, ring_empty.
  rewrite He, Z.eqb_refl. done.
Qed.

Lemma empty_ring_behaviour_witness :
  head ring4 = tail ring4 ∧
  ring_dequeue ring4 descA = Some (false, ring4, descA) ∧
  ring_peek ring4 = (NULL, ring4).
Proof.
  split; [reflexivity|]. apply (empty_ring_behaviour ring4 descA). reflexivity.
Defined.

(** ** Further properties of the code *)

(** X1, the ring is a bounded queue.  On a ring of power-of-two capacity,
    whatever the order of the calls of [ring_enqueue] and [ring_dequeue],
    the calls run without an access outside of the slot array, and the
    descriptors accepted, the descriptors returned and the descriptors
    left in the ring are those of a FIFO queue that holds at most
    [size - 1] descriptors and starts with the content of the ring. *)
Theorem ring_refines_bounded_queue ops :
  ∀ r out, ring_wf r →
    ∃ r' q' accepted returned,
      bounded_queue_run (Z.to_nat (size r - 1)) (contents r) ops
      = (q', accepted, returned) ∧
      run r out ops = Some (r', accepted, returned) ∧
      contents r' = q' ∧ size r' = size r ∧ ring_wf r'.
Proof.
  induction ops as [|[d|] ops IH]; intros r out Hwf.
  - exists r, (contents r), [], []. done.
  - pose proof (contents_length r (wf_range r Hwf)) as Hcl.
    pose proof (used_range r (wf_range r Hwf)) as Hu.
    destruct (ring_full r) eqn:Hf.
    + pose proof (proj1 (ring_full_used r Hwf) Hf) as Hfull.
      destruct (IH r out Hwf) as (r' & q' & acc & ret & Hq & Hrun & Hrest).
      exists r', q', acc, ret. simpl.
      rewrite decide_False by lia. rewrite ring_enqueue_full by done.
      simpl. rewrite Hrun. done.
    + assert (used r ≠ size r - 1) as Hne.
      { intros E. apply (ring_full_used r Hwf) in E. congruence. }
      destruct (ring_enqueue_spec r d Hwf Hf)
        as (r1 & Henq & Hwf1 & Hsz1 & _ & _ & _ & _ & Hc1).
      destruct (IH r1 out Hwf1)
        as (r' & q' & acc & ret & Hq & Hrun & Hc & Hsz & Hwf').
      exists r', q', (d :: acc), ret. simpl.
      rewrite decide_True by lia. rewrite <- Hc1, <- Hsz1, Hq.
      rewrite Henq. simpl. rewrite Hrun. simpl.
      split_and!; [done | done | done | congruence | done].
  - destruct (ring_empty r) eqn:He.
    + destruct (IH r out Hwf) as (r' & q' & acc & ret & Hq & Hrun & Hrest).
      exists r', q', acc, ret. simpl.
      rewrite (contents_empty r (wf_range r Hwf) He) in *.
      rewrite ring_dequeue_empty by done. simpl. rewrite Hrun. done.
    + destruct (ring_dequeue_spec r out Hwf He)
        as (x & r1 & Hdeq & Hwf1 & Hsz1 & _ & _ & _ & _ & Hc1).
      destruct (IH r1 x Hwf1)
        as (r' & q' & acc & ret & Hq & Hrun & Hc & Hsz & Hwf').
      exists r', q', acc, (x :: ret). simpl.
      rewrite Hc1, <- Hsz1, Hq. rewrite Hdeq. simpl. rewrite Hrun. simpl.
      split_and!; [done | done | done | congruence | done].
Qed.

Lemma ring_refines_bounded_queue_witness :
  ring_wf ring4_wrapping ∧
  ∃ r' q' accepted returned,
    bounded_queue_run (Z.to_nat (size ring4_wrapping - 1))
      (contents ring4_wrapping) [Enq descD; Enq descA; Deq; Deq; Enq descA]
    = (q', accepted, returned) ∧
    run ring4_wrapping desc0 [Enq descD; Enq descA; Deq; Deq; Enq descA]
    = Some (r', accepted, returned) ∧
    contents r' = q' ∧ size r' = size ring4_wrapping ∧ ring_wf r'.
Proof.
  split; [concrete_wf 2|].
  apply (ring_refines_bounded_queue [Enq descD; Enq descA; Deq; Deq; Enq descA]
           ring4_wrapping desc0).
  concrete_wf 2.
Defined.

(** X2, FIFO for every interleaving.  On an empty ring of power-of-two
    capacity, whatever the order of the calls, the descriptors accepted so
    far are the descriptors returned so far, in the same order, followed
    by the descriptors still in the ring, of which there are at most
    [size - 1]: a call of [ring_dequeue] never returns the content of a
    slot that was not written by an accepted [ring_enqueue], nor one
    descriptor twice, nor out of order. *)
Theorem fifo_any_interleaving r out ops :
  ring_wf r → ring_empty r = true →
  ∃ r' accepted returned,
    run r out ops = Some (r', accepted, returned) ∧
    accepted = returned ++ contents r' ∧
    Z.of_nat (length (contents r')) ≤ size r - 1 ∧
    ring_space r' = size r - 1 - Z.of_nat (length (contents r')).
Proof.
  intros Hwf He.
  destruct (run_spec ops r out Hwf) as (r' & acc & ret & Hrun & Hwf' & Hsz & Hq).
  rewrite (contents_empty r (wf_range r Hwf) He) in Hq. simpl in Hq.
  pose proof (contents_length r' (wf_range r' Hwf')) as Hcl.
  pose proof (used_range r' (wf_range r' Hwf')) as Hu.
  exists r', acc, ret. split; [done|]. split; [done|].
  rewrite (ring_space_used r' Hwf'). lia.
Qed.

Lemma fifo_any_interleaving_witness :
  ring_wf ring4 ∧ ring_empty ring4 = true ∧
  ∃ r' accepted returned,
    run ring4 desc0 [Enq descA; Deq; Deq; Enq descB; Enq descC; Deq; Enq descD]
    = Some (r', accepted, returned) ∧
    accepted = returned ++ contents r' ∧
    Z.of_nat (length (contents r')) ≤ size ring4 - 1 ∧
    ring_space r' = size ring4 - 1 - Z.of_nat (length (contents r')).
Proof.
  split; [concrete_wf 2|]. split; [reflexivity|].
  apply (fifo_any_interleaving ring4 desc0
           [Enq descA; Deq; Deq; Enq descB; Enq descC; Deq; Enq descD]);
    [concrete_wf 2 | reflexivity].
Defined.

(** X3, the indices count the calls.  On a ring of power-of-two capacity,
    whatever the order of the calls, the head has advanced by the number
    of descriptors accepted and the tail by the number of descriptors
    returned, both modulo the capacity. *)
Theorem indices_count_calls ops :
  ∀ r out, ring_wf r →
    ∃ r' accepted returned,
      run r out ops = Some (r', accepted, returned) ∧
      head r' = (head r + Z.of_nat (length accepted)) mod size r ∧
      tail r' = (tail r + Z.of_nat (length returned)) mod size r.
Proof.
  induction ops as [|[d|] ops IH]; intros r out Hwf;
    pose proof (wf_range r Hwf) as [Hsize _ Hh Ht _].
  - exists r, [], []. simpl. rewrite !Z.add_0_r, !Z.mod_small by lia. done.
  - destruct (ring_full r) eqn:Hf.
    + destruct (IH r out Hwf) as (r' & acc & ret & Hrun & Hhead & Htail).
      exists r', acc, ret. simpl. rewrite ring_enqueue_full by done.
      simpl. rewrite Hrun. done.
    + destruct (ring_enqueue_spec r d Hwf Hf)
        as (r1 & Henq & Hwf1 & Hsz1 & _ & Ht1 & Hh1 & _).
      destruct (IH r1 out Hwf1) as (r' & acc & ret & Hrun & Hhead & Htail).
      exists r', (d :: acc), ret. simpl. rewrite Henq. simpl. rewrite Hrun.
      simpl. split; [done|]. rewrite Hhead, Htail, Hsz1, Hh1, Ht1.
      rewrite Z.add_mod_idemp_l by lia. split; [f_equal; lia | done].
  - destruct (ring_empty r) eqn:He.
    + destruct (IH r out Hwf) as (r' & acc & ret & Hrun & Hhead & Htail).
      exists r', acc, ret. simpl. rewrite ring_dequeue_empty by done.
      simpl. rewrite Hrun. done.
    + destruct (ring_dequeue_spec r out Hwf He)
        as (x & r1 & Hdeq & Hwf1 & Hsz1 & _ & Hh1 & Ht1 & _).
      destruct (IH r1 x Hwf1) as (r' & acc & ret & Hrun & Hhead & Htail).
      exists r', acc, (x :: ret). simpl. rewrite Hdeq. simpl. rewrite Hrun.
      simpl. split; [done|]. rewrite Hhead, Htail, Hsz1, Hh1, Ht1.
      rewrite Z.add_mod_idemp_l by lia. split; [done | f_equal; lia].
Qed.

Lemma indices_count_calls_witness :
  ring_wf ring4 ∧
  ∃ r' accepted returned,
    run ring4 desc0 [Enq descA; Enq descB; Deq; Enq descC; Deq; Enq descD;
                     Enq descA; Deq]
    = Some (r', accepted, returned) ∧
    head r' = (head ring4 + Z.of_nat (length accepted)) mod size ring4 ∧
    tail r' = (tail ring4 + Z.of_nat (length returned)) mod size ring4.
Proof.
  split; [concrete_wf 2|].
  apply (indices_count_calls
           [Enq descA; Enq descB; Deq; Enq descC; Deq; Enq descD;
            Enq descA; Deq] ring4 desc0).
  concrete_wf 2.
Defined.

(** The ring after a successful [ring_enqueue], written out. *)
Lemma ring_enqueue_accepts r d :
  ring_wf r → ring_full r = false →
  ring_enqueue r d
  = Some (true, {| buffer := <[Z.to_nat (head r) := d]> (buffer r);
                   head := (head r + 1) mod size r;
                   tail := tail r;
                   mask := mask r;
                   size := size r |}).
Proof.
  intros Hwf Hnf. pose proof (land_mask_mod r (head r + 1) Hwf) as Hland.
  destruct Hwf as [[Hsz Hm Hh Ht Hlen] Hp].
  unfold ring_enqueue, store. rewrite Hnf. simpl.
  rewrite decide_True by lia. simpl. rewrite Hland. done.
Qed.

Lemma run_enqueues_full ds :
  ∀ r out, ring_full r = true → run r out (Enq <$> ds) = Some (r, [], []).
Proof.
  induction ds as [|d ds IH]; intros r out Hf; [done|].
  rewrite fmap_cons. simpl. rewrite ring_enqueue_full by done. simpl.
  change (list_fmap _ _ Enq ds) with (Enq <$> ds). rewrite IH by done. done.
Qed.

Lemma run_enqueues_app ds1 ds2 out :
  ∀ r r1 r2 acc1 acc2,
    run r out (Enq <$> ds1) = Some (r1, acc1, []) →
    run r1 out (Enq <$> ds2) = Some (r2, acc2, []) →
    run r out (Enq <$> (ds1 ++ ds2)) = Some (r2, acc1 ++ acc2, []).
Proof.
  induction ds1 as [|d ds1 IH]; intros r r1 r2 acc1 acc2 H1 H2.
  - simpl in H1. by simplify_eq.
  - rewrite <- app_comm_cons, fmap_cons. rewrite fmap_cons in H1.
    simpl in H1 |- *.
    change (list_fmap _ _ Enq ?l) with (Enq <$> l) in *.
    destruct (ring_enqueue r d) as [[ok ring']|]; [|done]. simpl in H1 |- *.
    destruct (run ring' out (Enq <$> ds1)) as [[[r1' a] rt]|] eqn:Hrun1;
      [|done].
    simpl in H1. simplify_eq.
    rewrite (IH ring' r1 r2 a acc2 Hrun1 H2). simpl.
    destruct ok; done.
Qed.

(** The copy loop of [ring_enqueue_bulk] and calls of [ring_enqueue] on
    the same items write the same slots. *)
Lemma bulk_copy_as_enqueues head0 descs out todo :
  ∀ r i,
    ring_wf r → 0 ≤ i → head r = (head0 + i) mod size r →
    i + Z.of_nat todo ≤ Z.of_nat (length descs) →
    used r + Z.of_nat todo ≤ size r - 1 →
    ∃ r', run r out (Enq <$> take todo (drop (Z.to_nat i) descs))
          = Some (r', take todo (drop (Z.to_nat i) descs), []) ∧
          bulk_copy (buffer r) head0 (mask r) descs i todo
          = Some (buffer r') ∧
          head r' = (head0 + i + Z.of_nat todo) mod size r ∧
          tail r' = tail r ∧ mask r' = mask r ∧ size r' = size r.
Proof.
  induction todo as [|todo IH]; intros r i Hwf Hi Hhead Hdescs Hroom.
  - exists r. rewrite take_0, Z.add_0_r. done.
  - pose proof (used_range r (wf_range r Hwf)) as Hu.
    pose proof (wf_range r Hwf) as [Hsz _ Hh _ Hlen].
    destruct (load_Some descs i) as [d Hd]; [lia|].
    assert (descs !! Z.to_nat i = Some d) as Hlook.
    { unfold load in Hd. rewrite decide_True in Hd by lia. done. }
    assert (ring_full r = false) as Hnf.
    { destruct (ring_full r) eqn:Hf; [|done].
      apply (ring_full_used r Hwf) in Hf. lia. }
    destruct (ring_enqueue_spec r d Hwf Hnf)
      as (r1 & Henq & Hwf1 & Hsz1 & Hm1 & Ht1 & Hh1 & Hu1 & _).
    pose proof (ring_enqueue_accepts r d Hwf Hnf) as Hacc.
    rewrite Henq in Hacc.
    assert (buffer r1 = <[Z.to_nat (head r) := d]> (buffer r)) as Hbuf.
    { by simplify_eq. }
    destruct (IH r1 (i + 1)) as (r' & Hrun & Hcopy & Hh' & Ht' & Hm' & Hsz');
      [done | lia | | lia | lia |].
    { rewrite Hh1, Hsz1, Hhead, Z.add_mod_idemp_l by lia. f_equal. lia. }
    replace (Z.to_nat (i + 1)) with (S (Z.to_nat i)) in Hrun by lia.
    exists r'. rewrite (drop_S descs d (Z.to_nat i)) by done.
    rewrite firstn_cons, fmap_cons. simpl. rewrite Henq, Hd. simpl.
    change (list_fmap _ _ Enq ?l) with (Enq <$> l). rewrite Hrun. simpl.
    unfold store. rewrite (land_mask_mod r _ Hwf), <- Hhead.
    rewrite decide_True by lia. simpl. rewrite <- Hbuf, <- Hm1, Hcopy.
    split_and!; try done; try congruence.
    rewrite Hh', Hsz1. f_equal. lia.
Qed.

(** X4, a bulk enqueue is a sequence of single enqueues.  On a ring of
    power-of-two capacity, [ring_enqueue_bulk] with an array of at least
    [count] items leaves the ring in the very state (slots and indices)
    in which calls of [ring_enqueue] on the items [descs[0]], ...,
    [descs[count - 1]], one after the other, leave it, and the items these
    calls accept are the [n] first ones, [n] being the count that
    [ring_enqueue_bulk] returns. *)
Theorem bulk_is_repeated_enqueue r out descs count :
  ring_wf r → 0 ≤ count ≤ Z.of_nat (length descs) →
  ∃ n r', ring_enqueue_bulk r descs count = Some (n, r', descs) ∧
          run r out (Enq <$> take (Z.to_nat count) descs)
          = Some (r', take (Z.to_nat n) descs, []).
Proof.
  intros Hwf Hcount.
  pose proof (ring_space_used r Hwf) as Hsp.
  pose proof (used_range r (wf_range r Hwf)) as Hu.
  pose proof (wf_range r Hwf) as [Hsz _ Hh _ _].
  destruct (ring_enqueue_bulk_spec r descs count Hwf Hcount)
    as (rb & Hbulk & Hwfb & Hszb & Hmb & Htb & Hhb & Hub & _).
  set (n := Z.min count (ring_space r)) in *.
  destruct (bulk_copy_as_enqueues (head r) descs out (Z.to_nat n) r 0)
    as (r' & Hrun & Hcopy & Hh' & Ht' & Hm' & Hsz'); [done | lia | | lia | lia |].
  { rewrite Z.add_0_r, Z.mod_small by lia. done. }
  rewrite drop_0 in Hrun.
  assert (rb = r') as <-.
  { destruct (Z.eq_dec n 0) as [Hz|Hnz].
    - rewrite Hz in Hrun. simpl in Hrun.
      assert (r' = r) as -> by congruence.
      unfold ring_enqueue_bulk in Hbulk. cbv zeta in Hbulk.
      assert ((if count <? ring_space r then count else ring_space r) = 0) as E.
      { destruct (Z.ltb_spec count (ring_space r)); lia. }
      rewrite E in Hbulk. simpl in Hbulk. by simplify_eq.
    - unfold ring_enqueue_bulk in Hbulk. cbv zeta in Hbulk.
      assert ((if count <? ring_space r then count else ring_space r) = n) as E.
      { subst n. destruct (Z.ltb_spec count (ring_space r)); lia. }
      rewrite E in Hbulk. rewrite (proj2 (Z.eqb_neq n 0) Hnz) in Hbulk.
      rewrite Hcopy in Hbulk. simpl in Hbulk.
      rewrite (land_mask_mod r _ Hwf) in Hbulk.
      destruct r' as [b' h' t' m' s']. simpl in *. simplify_eq.
      rewrite Z.add_0_r, Z2Nat.id by lia. done. }
  exists n, rb. split; [done|].
  assert (run rb out (Enq <$> drop (Z.to_nat n) (take (Z.to_nat count) descs))
          = Some (rb, [], [])) as Hrest.
  { destruct (Z.eq_dec n count) as [->|Hlt].
    - rewrite drop_ge; [done|]. rewrite length_take. lia.
    - apply run_enqueues_full. apply (ring_full_used rb Hwfb). subst n. lia. }
  rewrite <- (take_drop (Z.to_nat n) (take (Z.to_nat count) descs)).
  rewrite take_take, Nat.min_l by lia.
  rewrite <- (app_nil_r (take (Z.to_nat n) descs)) at 2.
  apply (run_enqueues_app _ _ out r rb rb); done.
Qed.

Lemma bulk_is_repeated_enqueue_witness :
  ring_wf ring4_one ∧
  0 ≤ 4 ≤ Z.of_nat (length [descB; descC; descD; descA]) ∧
  ∃ n r', ring_enqueue_bulk ring4_one [descB; descC; descD; descA] 4
          = Some (n, r', [descB; descC; descD; descA]) ∧
          run ring4_one desc0
            (Enq <$> take (Z.to_nat 4) [descB; descC; descD; descA])
          = Some (r', take (Z.to_nat n) [descB; descC; descD; descA], []).
Proof.
  split; [concrete_wf 2|]. split; [vm_compute; split; congruence|].
  apply (bulk_is_repeated_enqueue ring4_one desc0
           [descB; descC; descD; descA] 4);
    [concrete_wf 2 | vm_compute; split; congruence].
Defined.

(** X5, peek and dequeue agree.  On a ring of power-of-two capacity that
    is not empty, [ring_peek] returns the address of the slot [tail] and
    leaves the ring as it is; that slot holds the oldest descriptor of the
    ring, which is the one the next [ring_dequeue] returns, and it still
    holds it right after that call. *)
Theorem peek_is_next_dequeue r out :
  ring_wf r → ring_empty r = false →
  ∃ d r', ring_peek r = (slot_addr (tail r), r) ∧
          load (buffer r) (tail r) = Some d ∧
          ring_dequeue r out = Some (true, r', d) ∧
          contents r = d :: contents r' ∧
          load (buffer r') (tail r) = Some d.
Proof.
  intros Hwf He.
  destruct (ring_dequeue_spec r out Hwf He)
    as (d & r' & Hdeq & _ & _ & _ & _ & _ & _ & Hc).
  exists d, r'. unfold ring_peek. rewrite He.
  pose proof Hdeq as Hdeq'. unfold ring_dequeue in Hdeq'. rewrite He in Hdeq'.
  destruct (load (buffer r) (tail r)) as [x|] eqn:Hload; [|done].
  simpl in Hdeq'. simplify_eq. done.
Qed.

Lemma peek_is_next_dequeue_witness :
  ring_wf ring4_wrapping ∧ ring_empty ring4_wrapping = false ∧
  ∃ d r', ring_peek ring4_wrapping
          = (slot_addr (tail ring4_wrapping), ring4_wrapping) ∧
          load (buffer ring4_wrapping) (tail ring4_wrapping) = Some d ∧
          ring_dequeue ring4_wrapping desc0 = Some (true, r', d) ∧
          contents ring4_wrapping = d :: contents r' ∧
          load (buffer r') (tail ring4_wrapping) = Some d.
Proof.
  split; [concrete_wf 2|]. split; [reflexivity|].
  apply (peek_is_next_dequeue ring4_wrapping desc0);
    [concrete_wf 2 | reflexivity].
Defined.

(** X6, the queries agree.  On a ring of power-of-two capacity,
    [ring_space] is [size - 1] minus the number of descriptors in the
    ring; [ring_full] holds exactly when the space is 0 and [ring_empty]
    exactly when the space is [size - 1], that is when the ring holds no
    descriptor; with a capacity of 2 or more a ring is not full and empty
    at once. *)
Theorem queries_agree r :
  ring_wf r →
  ring_space r = size r - 1 - Z.of_nat (length (contents r)) ∧
  0 ≤ ring_space r ≤ size r - 1 ∧
  (ring_full r = true ↔ ring_space r = 0) ∧
  (ring_empty r = true ↔ ring_space r = size r - 1) ∧
  (ring_empty r = true ↔ contents r = []) ∧
  (1 < size r → ring_full r = true → ring_empty r = false).
Proof.
  intros Hwf.
  pose proof (ring_space_used r Hwf) as Hsp.
  pose proof (used_range r (wf_range r Hwf)) as Hu.
  pose proof (contents_length r (wf_range r Hwf)) as Hcl.
  pose proof (ring_full_used r Hwf) as Hfull.
  pose proof (ring_empty_used r (wf_range r Hwf)) as Hempty.
  split_and!; try lia.
  - rewrite Hfull. lia.
  - rewrite Hempty. lia.
  - rewrite Hempty. split.
    + intros Hz. apply length_zero_iff_nil. lia.
    + intros Hnil. rewrite Hnil in Hcl. simpl in Hcl. lia.
  - intros Hsz Hf. apply Hfull in Hf.
    destruct (ring_empty r); [|done]. pose proof (proj1 Hempty eq_refl). lia.
Qed.

Lemma queries_agree_witness :
  ring_wf ring4_wrapping ∧
  ring_space ring4_wrapping
  = size ring4_wrapping - 1 - Z.of_nat (length (contents ring4_wrapping)) ∧
  0 ≤ ring_space ring4_wrapping ≤ size ring4_wrapping - 1 ∧
  (ring_full ring4_wrapping = true ↔ ring_space ring4_wrapping = 0) ∧
  (ring_empty ring4_wrapping = true
   ↔ ring_space ring4_wrapping = size ring4_wrapping - 1) ∧
  (ring_empty ring4_wrapping = true ↔ contents ring4_wrapping = []) ∧
  (1 < size ring4_wrapping → ring_full ring4_wrapping = true →
   ring_empty ring4_wrapping = false).
Proof.
  split; [concrete_wf 2|]. apply (queries_agree ring4_wrapping). concrete_wf 2.
Defined.

(** X7, capacity 1.  A ring of capacity 1, a power of two, never holds a
    descriptor: it is full and empty at once, its space is 0,
    [ring_enqueue] returns false, [ring_enqueue_bulk] returns 0,
    [ring_dequeue] returns false and [ring_peek] returns [NULL], all of
    them leaving the ring as it is. *)
Theorem capacity_one_holds_nothing r :
  ring_wf r → size r = 1 →
  ring_full r = true ∧ ring_empty r = true ∧ ring_space r = 0 ∧
  (∀ d, ring_enqueue r d = Some (false, r)) ∧
  (∀ descs count, 0 ≤ count →
                  ring_enqueue_bulk r descs count = Some (0, r, descs)) ∧
  (∀ out, ring_dequeue r out = Some (false, r, out)) ∧
  ring_peek r = (NULL, r).
Proof.
  intros Hwf Hone.
  pose proof (ring_space_used r Hwf) as Hsp.
  pose proof (used_range r (wf_range r Hwf)) as Hu.
  assert (ring_full r = true) as Hf by (apply (ring_full_used r Hwf); lia).
  assert (ring_empty r = true) as He
    by (apply (ring_empty_used r (wf_range r Hwf)); lia).
  assert (ring_space r = 0) as Hz by lia.
  split_and!; try done.
  - intros d. apply ring_enqueue_full. done.
  - intros descs count Hcount. unfold ring_enqueue_bulk. cbv zeta.
    rewrite Hz. destruct (Z.ltb_spec count 0); [lia|]. done.
  - intros out. apply ring_dequeue_empty. done.
  - unfold ring_peek. rewrite He. done.
Qed.

Lemma capacity_one_holds_nothing_witness :
  ring_wf ring1 ∧ size ring1 = 1 ∧
  ring_full ring1 = true ∧ ring_empty ring1 = true ∧ ring_space ring1 = 0 ∧
  (∀ d, ring_enqueue ring1 d = Some (false, ring1)) ∧
  (∀ descs count, 0 ≤ count →
                  ring_enqueue_bulk ring1 descs count = Some (0, ring1, descs)) ∧
  (∀ out, ring_dequeue ring1 out = Some (false, ring1, out)) ∧
  ring_peek ring1 = (NULL, ring1).
Proof.
  split; [concrete_wf 0|]. split; [reflexivity|].
  apply (capacity_one_holds_nothing ring1); [concrete_wf 0 | reflexivity].
Defined.

Lemma land_1_even m : 0 ≤ m → m mod 2 = 0 → Z.land 1 m = 0.
Proof.
  intros Hm Heven. rewrite Z.land_comm. change 1 with (Z.ones 1).
  rewrite Z.land_ones by lia. rewrite Z.pow_1_r. exact Heven.
Qed.

(** With an odd capacity from 3 on, on a ring with both indices 0, a
    call of [ring_enqueue] is accepted and leaves both indices 0. *)
Lemma run_enqueues_odd sz out ds :
  3 ≤ sz < 2 ^ 32 → sz mod 2 = 1 →
  ∀ r, size r = sz → mask r = sz - 1 → head r = 0 → tail r = 0 →
       Z.of_nat (length (buffer r)) = sz →
       ∃ r', run r out (Enq <$> ds) = Some (r', ds, []) ∧
             size r' = sz ∧ mask r' = sz - 1 ∧ head r' = 0 ∧ tail r' = 0.
Proof.
  intros Hsz Hodd. induction ds as [|d ds IH]; intros r Hs Hm Hh Ht Hlen.
  - exists r. done.
  - assert (Z.land 1 (sz - 1) = 0) as Hland.
    { apply land_1_even; [lia|].
      replace (sz - 1) with (sz + (-1) * 1) by lia.
      rewrite <- Z.add_mod_idemp_l, Hodd by lia. done. }
    destruct (IH {| buffer := <[Z.to_nat 0 := d]> (buffer r); head := 0;
                    tail := 0; mask := sz - 1; size := sz |})
      as (r' & Hrun & Hrest); try (simpl; done).
    { simpl. rewrite length_insert. done. }
    assert (ring_enqueue r d
            = Some (true, {| buffer := <[Z.to_nat 0 := d]> (buffer r);
                             head := 0; tail := 0;
                             mask := sz - 1; size := sz |})) as Henq.
    { unfold ring_enqueue, ring_full, store. rewrite Hh, Ht, Hm, Hs.
      change (wrap32 (0 - 0)) with 0. rewrite Z.land_0_l.
      destruct (Z.eqb_spec 0 (sz - 1)); [lia|].
      rewrite decide_True by lia. cbn [mbind option_bind].
      change (wrap32 (0 + 1)) with 1. rewrite Hland. done. }
    exists r'. rewrite fmap_cons.
    change (run r out (Enq d :: (Enq <$> ds)))
      with (ring_enqueue r d ≫= λ '(ok, ring'),
            run ring' out (Enq <$> ds) ≫= λ '(r0, acc, ret),
            Some (r0, if ok : bool then d :: acc else acc, ret)).
    rewrite Henq. cbn [mbind option_bind]. rewrite Hrun. done.
Qed.

(** X8, odd capacity.  [ring_init] takes an odd capacity from 3 on, and
    on the ring it builds every call of [ring_enqueue] returns true,
    however many there are, while head and tail stay 0: the ring is never
    full and stays empty, so that [ring_dequeue] returns false and none
    of the accepted descriptors can be read back. *)
Theorem odd_capacity_loses_descriptors junk r0 sz out ds :
  3 ≤ sz < 2 ^ 32 → sz mod 2 = 1 →
  ∃ r', run (ring_init junk r0 sz) out (Enq <$> ds) = Some (r', ds, []) ∧
        head r' = 0 ∧ tail r' = 0 ∧
        ring_full r' = false ∧ ring_empty r' = true ∧
        ring_dequeue r' out = Some (false, r', out).
Proof.
  intros Hsz Hodd.
  destruct (run_enqueues_odd sz out ds Hsz Hodd (ring_init junk r0 sz))
    as (r' & Hrun & Hs & Hm & Hh & Ht); try (simpl; done).
  { simpl. apply wrap32_small. lia. }
  { simpl. rewrite malloc_length. lia. }
  assert (ring_empty r' = true) as He.
  { unfold ring_empty. rewrite Hh, Ht. done. }
  exists r'. split_and!; try done.
  - unfold ring_full. rewrite Hh, Ht, Hm.
    change (wrap32 (0 - 0)) with 0. rewrite Z.land_0_l.
    destruct (Z.eqb_spec 0 (sz - 1)); [lia | done].
  - apply ring_dequeue_empty. done.
Qed.

Lemma odd_capacity_loses_descriptors_witness :
  3 ≤ 5 < 2 ^ 32 ∧ 5 mod 2 = 1 ∧
  ∃ r', run (ring_init (λ _, desc0) no_ring 5) desc0
          (Enq <$> [descA; descB; descC; descD; descA; descB; descC])
        = Some (r', [descA; descB; descC; descD; descA; descB; descC], []) ∧
        head r' = 0 ∧ tail r' = 0 ∧
        ring_full r' = false ∧ ring_empty r' = true ∧
        ring_dequeue r' desc0 = Some (false, r', desc0).
Proof.
  split; [lia|]. split; [reflexivity|].
  apply (odd_capacity_loses_descriptors (λ _, desc0) no_ring 5 desc0
           [descA; descB; descC; descD; descA; descB; descC]);
    [lia | reflexivity].
Defined.

(** X9, capacity 0.  [ring_init] takes the capacity 0 and builds a ring
    without slots whose mask is [2^32 - 1]: the ring is empty and not
    full, its space is [2^32 - 1], and a call of [ring_enqueue], or of
    [ring_enqueue_bulk] with a count above 0, makes an access outside of
    an array. *)
Theorem capacity_zero_out_of_bounds junk r0 :
  let r := ring_init junk r0 0 in
  buffer r = [] ∧ mask r = 2 ^ 32 - 1 ∧
  ring_empty r = true ∧ ring_full r = false ∧ ring_space r = 2 ^ 32 - 1 ∧
  (∀ d, ring_enqueue r d = None) ∧
  (∀ descs count, 0 < count → ring_enqueue_bulk r descs count = None).
Proof.
  simpl. split_and!; try done.
  intros descs count Hcount. unfold ring_enqueue_bulk. cbv zeta.
  change (ring_space (ring_init junk r0 0)) with 4294967295.
  set (n := if count <? 4294967295 then count else 4294967295).
  assert (0 < n) as Hn.
  { subst n. destruct (Z.ltb_spec count 4294967295); lia. }
  destruct (Z.eqb_spec n 0); [lia|].
  destruct (Z.to_nat n) as [|todo] eqn:Htodo; [lia|]. simpl.
  destruct (load descs 0); done.
Qed.

Lemma capacity_zero_out_of_bounds_witness :
  buffer ring0 = [] ∧ mask ring0 = 2 ^ 32 - 1 ∧
  ring_empty ring0 = true ∧ ring_full ring0 = false ∧
  ring_space ring0 = 2 ^ 32 - 1 ∧
  ring_enqueue ring0 descA = None ∧
  0 < 2 ∧ ring_enqueue_bulk ring0 [descA; descB] 2 = None.
Proof.
  destruct (capacity_zero_out_of_bounds (λ _, desc0) no_ring)
    as (Hb & Hm & He & Hf & Hs & Henq & Hbulk).
  split_and!; [exact Hb | exact Hm | exact He | exact Hf | exact Hs
              | exact (Henq descA) | lia | apply Hbulk; lia].
Defined.

(** X10, what the producer and the consumer leave alone.  On any ring,
    whatever it returns, [ring_enqueue] changes neither the tail, the
    mask, the size nor any slot but the slot [head], and
    [ring_enqueue_bulk] changes neither the tail, the mask, the size, the
    number of slots nor the caller's array; [ring_dequeue] changes neither
    the head, the mask, the size nor any slot, and leaves the caller's
    descriptor alone when it returns false; [ring_peek] changes nothing. *)
Theorem producer_consumer_frame r :
  (∀ d ok r', ring_enqueue r d = Some (ok, r') →
     tail r' = tail r ∧ mask r' = mask r ∧ size r' = size r ∧
     length (buffer r') = length (buffer r) ∧
     (∀ i, i ≠ head r → load (buffer r') i = load (buffer r) i) ∧
     (ok = false → r' = r)) ∧
  (∀ descs count n r' descs', ring_enqueue_bulk r descs count = Some (n, r', descs') →
     tail r' = tail r ∧ mask r' = mask r ∧ size r' = size r ∧
     length (buffer r') = length (buffer r) ∧ descs' = descs) ∧
  (∀ out ok r' out', ring_dequeue r out = Some (ok, r', out') →
     head r' = head r ∧ mask r' = mask r ∧ size r' = size r ∧
     buffer r' = buffer r ∧ (ok = false → r' = r ∧ out' = out)) ∧
  (∀ p r', ring_peek r = (p, r') → r' = r).
Proof.
  split_and!.
  - intros d ok r' Henq. unfold ring_enqueue in Henq.
    destruct (ring_full r); [by simplify_eq|].
    destruct (store (buffer r) (head r) d) as [buf|] eqn:Hst; [|done].
    unfold store in Hst. case_decide; [|done]. simplify_eq/=.
    split_and!; try done.
    + apply length_insert.
    + intros i Hi. unfold load. case_decide; [|done].
      apply list_lookup_insert_ne. lia.
  - intros descs count n r' descs' Hbulk. unfold ring_enqueue_bulk in Hbulk.
    cbv zeta in Hbulk. destruct (_ =? 0); [by simplify_eq|].
    destruct (bulk_copy _ _ _ _ _ _) as [buf|] eqn:Hcopy; [|done].
    apply bulk_copy_length in Hcopy. by simplify_eq/=.
  - intros out ok r' out' Hdeq. unfold ring_dequeue in Hdeq.
    destruct (ring_empty r); [by simplify_eq|].
    destruct (load (buffer r) (tail r)) as [x|]; [|done]. by simplify_eq/=.
  - intros p r' Hpeek. unfold ring_peek in Hpeek.
    destruct (ring_empty r); by simplify_eq.
Qed.

Lemma producer_consumer_frame_witness :
  (let r' := mk_ring [descA; descB; descC; descD] 0 1 3 4 in
   tail r' = tail ring4_wrapping ∧ mask r' = mask ring4_wrapping ∧
   size r' = size ring4_wrapping ∧
   length (buffer r') = length (buffer ring4_wrapping) ∧
   (∀ i, i ≠ head ring4_wrapping →
         load (buffer r') i = load (buffer ring4_wrapping) i) ∧
   (true = false → r' = ring4_wrapping)) ∧
  (let r' := mk_ring [descA; descB; descC; desc0] 3 2 3 4 in
   head r' = head ring4_wrapping ∧ mask r' = mask ring4_wrapping ∧
   size r' = size ring4_wrapping ∧ buffer r' = buffer ring4_wrapping ∧
   (true = false → r' = ring4_wrapping ∧ descB = desc0)).
Proof.
  destruct (producer_consumer_frame ring4_wrapping)
    as (Henq & _ & Hdeq & _).
  split.
  - apply (Henq descD true). reflexivity.
  - apply (Hdeq desc0 true _ descB). reflexivity.
Defined.

(** X11, the example caller.  Whatever the memory it starts with holds,
    [example_tx_processing] builds a ring of capacity 256 and its call of
    [ring_enqueue] succeeds, so that the branch that notifies the hardware
    is taken; at the end the ring holds the descriptor of the example and
    nothing else, in slot 0, with the head at 1, the tail at 0 and 254
    free slots. *)
Theorem example_tx_processing_enqueues junk tx_ring :
  let desc := mk_desc 0 0x12345000 1500 1 0 in
  ∃ r', example_tx_processing junk tx_ring = Some (true, r') ∧
        ring_wf r' ∧ size r' = 256 ∧ head r' = 1 ∧ tail r' = 0 ∧
        load (buffer r') 0 = Some desc ∧
        contents r' = [desc] ∧ ring_space r' = 254.
Proof.
  intros desc. unfold example_tx_processing. cbv zeta.
  fold desc.
  assert (ring_wf (ring_init junk tx_ring RING_SIZE)) as Hwf.
  { apply ring_init_wf; [exists 8; split; [lia | reflexivity] | done]. }
  assert (ring_full (ring_init junk tx_ring RING_SIZE) = false) as Hnf
    by reflexivity.
  assert (ring_empty (ring_init junk tx_ring RING_SIZE) = true) as He
    by reflexivity.
  destruct (ring_enqueue_spec _ desc Hwf Hnf)
    as (r' & Henq & Hwf' & Hsz & _ & Ht & Hh & Hu & Hc).
  pose proof (ring_enqueue_accepts _ desc Hwf Hnf) as Hacc.
  rewrite Henq in Hacc.
  rewrite (contents_empty _ (wf_range _ Hwf) He) in Hc.
  exists r'. split; [done|]. split; [done|].
  pose proof (ring_space_used r' Hwf') as Hsp.
  rewrite (proj1 (ring_empty_used _ (wf_range _ Hwf)) He) in Hu.
  split_and!; try done.
  - injection Hacc as ->.
    change (load (<[Z.to_nat 0 := desc]> (malloc junk RING_SIZE)) 0
            = Some desc).
    apply load_insert_eq. rewrite malloc_length. unfold RING_SIZE. lia.
  - rewrite Hsp, Hu, Hsz. done.
Qed.

(** X12, draining.  On a ring of power-of-two capacity, as many calls of
    [ring_dequeue] as the ring holds descriptors return all of them,
    oldest first; the ring is then empty with [size - 1] free slots, and
    one more [ring_dequeue] returns false. *)
Theorem drain_returns_everything r out :
  ring_wf r →
  ∃ r', run r out (replicate (length (contents r)) Deq)
        = Some (r', [], contents r) ∧
        ring_empty r' = true ∧ ring_space r' = size r - 1 ∧
        ∀ out', ring_dequeue r' out' = Some (false, r', out').
Proof.
  intros Hwf.
  destruct (run_dequeues (length (contents r)) r out Hwf)
    as (r' & Hrun & Hwf' & Hsz & Hc).
  rewrite take_ge in Hrun by done. rewrite drop_ge in Hc by done.
  pose proof (contents_length r' (wf_range r' Hwf')) as Hcl.
  pose proof (used_range r' (wf_range r' Hwf')) as Hu.
  rewrite Hc in Hcl. simpl in Hcl.
  assert (ring_empty r' = true) as He
    by (apply (ring_empty_used r' (wf_range r' Hwf')); lia).
  exists r'. split_and!; try done.
  - rewrite (ring_space_used r' Hwf'), Hsz. lia.
  - intros out'. apply ring_dequeue_empty. done.
Qed.

Lemma drain_returns_everything_witness :
  ring_wf ring4_wrapping ∧
  ∃ r', run ring4_wrapping desc0
          (replicate (length (contents ring4_wrapping)) Deq)
        = Some (r', [], contents ring4_wrapping) ∧
        ring_empty r' = true ∧ ring_space r' = size ring4_wrapping - 1 ∧
        ∀ out', ring_dequeue r' out' = Some (false, r', out').
Proof.
  split; [concrete_wf 2|].
  apply (drain_returns_everything ring4_wrapping desc0). concrete_wf 2.
Defined.

(** X13, bulk round trip.  On a ring of power-of-two capacity, after
    [ring_enqueue_bulk] has returned [n], calls of [ring_dequeue] return
    the descriptors that were in the ring before, oldest first, and then
    the items [descs[0]], ..., [descs[n - 1]] in the order of the array;
    once they are all returned the ring is empty. *)
Theorem bulk_then_dequeue r out descs count m :
  ring_wf r → 0 ≤ count ≤ Z.of_nat (length descs) →
  ∃ n r1 r2,
    ring_enqueue_bulk r descs count = Some (n, r1, descs) ∧
    n = Z.min count (ring_space r) ∧
    run r1 out (replicate m Deq)
    = Some (r2, [], take m (contents r ++ take (Z.to_nat n) descs)) ∧
    (length (contents r) + Z.to_nat n ≤ m → ring_empty r2 = true)%nat.
Proof.
  intros Hwf Hcount.
  pose proof (ring_space_used r Hwf) as Hsp.
  pose proof (used_range r (wf_range r Hwf)) as Hu.
  destruct (ring_enqueue_bulk_spec r descs count Hwf Hcount)
    as (r1 & Hbulk & Hwf1 & _ & _ & _ & _ & _ & Hc1 & _).
  destruct (run_dequeues m r1 out Hwf1) as (r2 & Hrun & Hwf2 & _ & Hc2).
  exists (Z.min count (ring_space r)), r1, r2.
  rewrite Hc1 in Hrun, Hc2. split_and!; try done.
  intros Hm. apply (ring_empty_used r2 (wf_range r2 Hwf2)).
  pose proof (contents_length r2 (wf_range r2 Hwf2)) as Hcl.
  pose proof (used_range r2 (wf_range r2 Hwf2)) as Hu2.
  rewrite Hc2, length_drop, length_app, length_take in Hcl. lia.
Qed.

Lemma bulk_then_dequeue_witness :
  ring_wf ring4_one ∧
  0 ≤ 4 ≤ Z.of_nat (length [descB; descC; descD; descA]) ∧
  ∃ n r1 r2,
    ring_enqueue_bulk ring4_one [descB; descC; descD; descA] 4
    = Some (n, r1, [descB; descC; descD; descA]) ∧
    n = Z.min 4 (ring_space ring4_one) ∧
    run r1 desc0 (replicate 3 Deq)
    = Some (r2, [],
            take 3 (contents ring4_one
                    ++ take (Z.to_nat n) [descB; descC; descD; descA])) ∧
    (length (contents ring4_one) + Z.to_nat n ≤ 3 → ring_empty r2 = true)%nat.
Proof.
  split; [concrete_wf 2|]. split; [vm_compute; split; congruence|].
  apply (bulk_then_dequeue ring4_one desc0 [descB; descC; descD; descA] 4 3);
    [concrete_wf 2 | vm_compute; split; congruence].
Defined.
